(** * dask_cugraph: locality-aware dispatch of multi-GPU PageRank

    A shallow embedding of [dask_cugraph.py]: the address parser
    [parse_host_port], the rank query [get_rank], the per-partition task
    [_mg_pagerank] and the coordinator [_get_mg_info], together with the
    Python builtins and the parts of the dask client they call. *)

From Stdlib Require Import ZArith Ascii String.
From stdpp Require Import base option list gmap strings sorting.

Local Open Scope string_scope.
Local Open Scope Z_scope.
Local Open Scope list_scope.

(** ** Python values the module manipulates *)

(** Exceptions that the modelled code can raise.  [TaskError w] is the
    exception of a remote task that failed on worker [w], re-raised by
    [Future.result]. *)
Inductive exn : Type :=
  | ValueError
  | StopIteration
  | IndexError
  | KeyError (k : nat)
  | KeyErrorStr (k : string)
  | KeyErrorZ (k : Z)
  | TimeoutError
  | TaskError (w : string).

(** What a call does: return, raise, or block the coordinator for ever. *)
Inductive outcome (A : Type) : Type :=
  | Ret (a : A)
  | Raise (e : exn)
  | Hang.
Arguments Ret {A} a.
Arguments Raise {A} e.
Arguments Hang {A}.

(** ** The [str] and [int] builtins

    A [string] is read as a sequence of code points below 256, one per
    [ascii]. *)
Module Py.

Fixpoint startswith (p s : string) : bool :=
  match p, s with
  | EmptyString, _ => true
  | String _ _, EmptyString => false
  | String a p', String b s' => if Ascii.eqb a b then startswith p' s' else false
  end.

(** [sub in s] *)
Fixpoint contains (sub s : string) : bool :=
  startswith sub s ||
  match s with
  | EmptyString => false
  | String _ s' => contains sub s'
  end.

Fixpoint drop (n : nat) (s : string) : string :=
  match n, s with
  | O, _ => s
  | S _, EmptyString => EmptyString
  | S n', String _ s' => drop n' s'
  end.

(** The rightmost occurrence of [sep] in [s]: what is before it and what
    is after it. *)
Fixpoint rpartition (sep s : string) : option (string * string) :=
  match s with
  | EmptyString => None
  | String c t =>
      match rpartition sep t with
      | Some (a, b) => Some (String c a, b)
      | None =>
          if startswith sep s
          then Some (EmptyString, drop (String.length sep) s)
          else None
      end
  end.

(** [s.rsplit(sep, 1)] for a non-empty [sep]. *)
Definition rsplit1 (sep s : string) : list string :=
  match rpartition sep s with
  | Some (a, b) => [a; b]
  | None => [s]
  end.

(** [s.split(sep)] for a separator of one character. *)
Fixpoint split (sep : ascii) (s : string) : list string :=
  match s with
  | EmptyString => [EmptyString]
  | String c t =>
      if Ascii.eqb c sep then EmptyString :: split sep t
      else match split sep t with
           | h :: r => String c h :: r
           | [] => [String c EmptyString]
           end
  end.

(** The code points below 256 that [int] skips around a literal: TAB..CR
    and space, and NEL and NBSP, which it first turns into spaces.  The
    separators FS..US, white space for [str.isspace], are not skipped. *)
Definition int_space (c : ascii) : bool :=
  let n := nat_of_ascii c in
  ((9 <=? n)%nat && (n <=? 13)%nat) || (n =? 32)%nat
  || (n =? 133)%nat || (n =? 160)%nat.

Definition isdigit (c : ascii) : bool :=
  let n := nat_of_ascii c in (48 <=? n)%nat && (n <=? 57)%nat.

Definition digit_val (c : ascii) : Z := Z.of_nat (nat_of_ascii c) - 48.

(** What [int] skips before and after the literal. *)
Fixpoint lstrip (s : string) : string :=
  match s with
  | EmptyString => EmptyString
  | String c t => if int_space c then lstrip t else s
  end.

Fixpoint rstrip (s : string) : string :=
  match s with
  | EmptyString => EmptyString
  | String c t =>
      match rstrip t with
      | EmptyString => if int_space c then EmptyString else String c EmptyString
      | r => String c r
      end
  end.

Definition strip (s : string) : string := rstrip (lstrip s).

(** The digits of a decimal literal; a single underscore may stand
    between two digits.  [after_digit] tells whether the previous
    character was a digit. *)
Fixpoint digits (acc : Z) (after_digit : bool) (s : string) : option Z :=
  match s with
  | EmptyString => if after_digit then Some acc else None
  | String c t =>
      if isdigit c then digits (10 * acc + digit_val c) true t
      else if Ascii.eqb c "_" && after_digit then digits acc false t
      else None
  end.

(** [int(s)] in base ten; [None] stands for [ValueError].  Surrounding
    white space, one sign and single underscores between digits are
    accepted, as the interpreter does; the bound that recent interpreters
    put on the number of digits is not modelled. *)
Definition int (s : string) : option Z :=
  match strip s with
  | String "+" t => digits 0 false t
  | String "-" t => Z.opp <$> digits 0 false t
  | t => digits 0 false t
  end.

(** [toolz.first]: [next(iter(seq))]. *)
Definition first {A} (seq : list A) : outcome A :=
  match seq with
  | a :: _ => Ret a
  | [] => Raise StopIteration
  end.

(** [dict(pairs)]: a later pair overwrites an earlier one with its key. *)
Definition dict `{Countable K} {V} (pairs : list (K * V)) : gmap K V :=
  foldl (fun m kv => <[kv.1 := kv.2]> m) ∅ pairs.

End Py.

(** ** The fixed-width numbers of numpy *)
Module Np.

(** The value of an [int64] operation: wrap-around modulo [2 ^ 64]. *)
Definition int64 (z : Z) : Z := (z + 2 ^ 63) mod 2 ^ 64 - 2 ^ 63.

(** The multiple of [2 ^ e] nearest to [a], a tie going to the even one. *)
Definition round_half_even (a e : Z) : Z :=
  let q := a / 2 ^ e in
  let r := a mod 2 ^ e in
  let half := 2 ^ (e - 1) in
  if r <? half then q * 2 ^ e
  else if half <? r then (q + 1) * 2 ^ e
  else if Z.even q then q * 2 ^ e
  else (q + 1) * 2 ^ e.

(** The [float64] nearest to the integer [z]: 53 significant bits.  The
    integers met here are far below the overflow to infinity. *)
Definition float64 (z : Z) : Z :=
  let a := Z.abs z in
  let e := Z.log2 a - 52 in
  if e <=? 0 then z else Z.sgn z * round_half_even a e.

End Np.

(** ** The address parser *)

Definition WorkerAddress : Type := string * Z.

Definition parse_host_port (address : string) : outcome WorkerAddress :=
  let suffix :=
    if Py.contains "://" address
    then Py.rsplit1 "://" address !! 1%nat
    else Some address in
  match suffix with
  | None => Raise IndexError
  | Some address =>
      match Py.split ":" address with
      | [host; port] =>
          match Py.int port with
          | Some port => Ret (host, port)
          | None => Raise ValueError
          end
      | _ => Raise ValueError
      end
  end.

(** ** Partitions, workers and the cluster *)

(** A materialised partition: its key and its edge rows (source id,
    destination id), two int64 columns. *)
Record Part : Type := { key : string; rows : list (Z * Z) }.

(** A scalar produced by a column reduction. *)
Inductive Scalar : Type :=
  | SInt (z : Z)      (* a numpy.int64 *)
  | SFloat (z : Z)    (* a numpy.float64 whose value is the integer z *)
  | SNaN.             (* the float64 NaN *)

Inductive Liveness : Type :=
  | Alive         (* runs the tasks it receives *)
  | Failing       (* every task it receives raises *)
  | Unreachable.  (* never runs a task pinned to it *)

(** The process behind a worker address: its rank in [MPI.COMM_WORLD] and
    whether it answers. *)
Record Worker : Type := { comm_rank : nat; liveness : Liveness }.

(** What the coordinator can observe of the scheduler and the workers
    during one round. *)
Record Cluster : Type := {
  (* [client.who_has(parts).items()], in the order the scheduler returns it *)
  who_has : list (string * list string);
  (* [list(client.has_what().keys())], the worker registry *)
  has_what : list string;
  (* the process listening at an address *)
  worker : string -> Worker;
  (* whether [cugraph.mg_pagerank(data, pr_col_length, global_v)] raises *)
  kernel_raises : Part -> Z -> Scalar -> bool
}.

Inductive Task : Type :=
  | GetRank (l : Part)
  | MgPagerank (data : Part) (global_v : Scalar).

(** Task results.  The frame [cugraph.mg_pagerank] returns is kept
    symbolic: it is an opaque function of its three arguments. *)
Inductive Value : Type :=
  | VRank (rank : nat)
  | VFrame (data : Part) (pr_col_length : Z) (global_v : Scalar).

(** [client.submit(task, ..., workers=[pin])]. *)
Record Future : Type := { task : Task; pin : string }.

(** ** Functions run on the workers *)

Definition get_rank (proc : Worker) (l : Part) : nat :=
  let rank := comm_rank proc in
  rank.

(** Row labels of a partition are taken to start at 0, so [col[len-1]] and
    [col[0]] are the last and the first destination id, and their
    difference and its successor are int64 operations; on a partition
    without rows the lookup of label [-1] raises [KeyError]. *)
Definition _mg_pagerank (c : Cluster) (proc : Worker) (data : Part)
    (global_v : Scalar) : outcome Value :=
  let rank := comm_rank proc in
  match rows data, last (rows data) with
  | r0 :: _, Some rn =>
      let pr_col_length := Np.int64 (Np.int64 (rn.2 - r0.2) + 1) in
      if kernel_raises c data pr_col_length global_v
      then Raise (TaskError (key data))
      else Ret (VFrame data pr_col_length global_v)
  | _, _ => Raise (KeyErrorZ (-1))
  end.

(** How the task behind a future ends: it runs on the process at [pin f],
    and nowhere else. *)
Definition run (c : Cluster) (f : Future) : outcome Value :=
  let proc := worker c (pin f) in
  match liveness proc with
  | Unreachable => Hang
  | Failing => Raise (TaskError (pin f))
  | Alive =>
      match task f with
      | GetRank l => Ret (VRank (get_rank proc l))
      | MgPagerank data global_v => _mg_pagerank c proc data global_v
      end
  end.

(** ** The coordinator: a state monad over the trace of client calls *)

Inductive Event : Type :=
  | EvMaterialize (parts : list Part)   (* client.compute(parts); wait(parts) *)
  | EvWhoHas
  | EvHasWhat
  | EvSubmit (f : Future)
  | EvResult (f : Future)
  | EvReduce (col : nat)                (* ddf[ddf.columns[col]].max().compute() *)
  | EvWait (fs : list Future).

Definition M (A : Type) : Type := list Event -> outcome A * list Event.

Definition ret {A} (a : A) : M A := fun tr => (Ret a, tr).

Definition bind {A B} (m : M A) (k : A -> M B) : M B :=
  fun tr =>
    match m tr with
    | (Ret a, tr') => k a tr'
    | (Raise e, tr') => (Raise e, tr')
    | (Hang, tr') => (Hang, tr')
    end.

Definition emit (e : Event) : M unit := fun tr => (Ret tt, tr ++ [e]).

Definition lift {A} (o : outcome A) : M A := fun tr => (o, tr).

Notation "x <- m ;; k" := (bind m (fun x => k))
  (at level 100, m at next level, right associativity).
Notation "m ;;; k" := (bind m (fun _ => k))
  (at level 100, right associativity).

Fixpoint mapM {A B} (f : A -> M B) (l : list A) : M (list B) :=
  match l with
  | [] => ret []
  | a :: l' => b <- f a ;; bs <- mapM f l' ;; ret (b :: bs)
  end.

(** A loop that raises at the first element whose body raises. *)
Fixpoint mapO {A B} (f : A -> outcome B) (l : list A) : outcome (list B) :=
  match l with
  | [] => Ret []
  | a :: l' =>
      match f a with
      | Ret b =>
          match mapO f l' with
          | Ret bs => Ret (b :: bs)
          | Raise e => Raise e
          | Hang => Hang
          end
      | Raise e => Raise e
      | Hang => Hang
      end
  end.

(** *** The dask client *)

(** Lines 64-66; the partitions are taken to materialise. *)
Definition materialize (ddf : list Part) : M (list Part) :=
  emit (EvMaterialize ddf) ;;; ret ddf.

Definition client_who_has (c : Cluster) : M (list (string * list string)) :=
  emit EvWhoHas ;;; ret (who_has c).

Definition client_has_what (c : Cluster) : M (list string) :=
  emit EvHasWhat ;;; ret (has_what c).

Definition submit (t : Task) (worker : string) : M Future :=
  let f := {| task := t; pin := worker |} in
  emit (EvSubmit f) ;;; ret f.

(** [Future.result(timeout)]: the value of the task, its exception, or,
    when the task never ends, [TimeoutError] after [timeout] or no return
    at all without one. *)
Inductive Timeout : Type := NoTimeout | After (seconds : nat).

Definition result (c : Cluster) (f : Future) (timeout : Timeout) : M Value :=
  emit (EvResult f) ;;;
  match run c f with
  | Hang => match timeout with
            | NoTimeout => lift Hang
            | After _ => lift (Raise TimeoutError)
            end
  | o => lift o
  end.

Definition resolved (c : Cluster) (f : Future) : bool :=
  match run c f with
  | Hang => false
  | _ => true
  end.

(** [wait(fs)]: returns once every future is finished or erred; it does
    not raise when a task has failed. *)
Definition wait (c : Cluster) (fs : list Future) : M unit :=
  emit (EvWait fs) ;;;
  if forallb (resolved c) fs then ret tt else lift Hang.

(** *** Column reductions *)

Definition column (col : nat) (p : Part) : list Z :=
  map (fun r : Z * Z => if (col =? 0)%nat then r.1 else r.2) (rows p).

(** The maximum of two values, a missing one (NaN) being skipped. *)
Definition nanmax (a b : option Z) : option Z :=
  match a, b with
  | Some x, Some y => Some (Z.max x y)
  | Some x, None => Some x
  | None, _ => b
  end.

(** [Series.max()] of one partition; [None] is the NaN of a partition
    without rows. *)
Definition series_max (xs : list Z) : option Z :=
  foldl (fun acc x => nanmax acc (Some x)) None xs.

Definition not_nan (m : option Z) : bool :=
  match m with
  | Some _ => true
  | None => false
  end.

(** [ddf[col].max().compute()]: the maxima of the partitions are gathered
    in one series, of dtype int64 when none of them is NaN and of dtype
    float64 otherwise, and the result is its maximum, NaN skipped. *)
Definition ddf_max (col : nat) (ddf : list Part) : Scalar :=
  let chunks := map (fun p => series_max (column col p)) ddf in
  if forallb not_nan chunks
  then match foldl nanmax None chunks with
       | Some m => SInt m
       | None => SNaN
       end
  else match foldl nanmax None (option_map Np.float64 <$> chunks) with
       | Some m => SFloat m
       | None => SNaN
       end.

Definition compute_max (col : nat) (ddf : list Part) : M Scalar :=
  emit (EvReduce col) ;;; ret (ddf_max col ddf).

(** The float64 a scalar is compared as, when the other is a float64. *)
Definition as_float (a : Scalar) : option Z :=
  match a with
  | SInt z => Some (Np.float64 z)
  | SFloat z => Some z
  | SNaN => None
  end.

(** [b > a]; a comparison with NaN is false. *)
Definition scalar_gt (b a : Scalar) : bool :=
  match b, a with
  | SInt y, SInt x => x <? y
  | _, _ =>
      match as_float b, as_float a with
      | Some y, Some x => x <? y
      | _, _ => false
      end
  end.

(** [max(a, b)]: [b] when [b > a], else [a]. *)
Definition scalar_max (a b : Scalar) : Scalar :=
  if scalar_gt b a then b else a.

(** [a + 1], in the arithmetic of [a]. *)
Definition scalar_succ (a : Scalar) : Scalar :=
  match a with
  | SInt z => SInt (Np.int64 (z + 1))
  | SFloat z => SFloat (Np.float64 (z + 1))
  | SNaN => SNaN
  end.

Definition vertex_count (ddf : list Part) : Scalar :=
  let max_node_src_col := ddf_max 0 ddf in
  let max_node_dest_col := ddf_max 1 ddf in
  scalar_succ (scalar_max max_node_src_col max_node_dest_col).

(** *** [_get_mg_info] *)

Definition enumerate {A} (l : list A) : list (nat * A) :=
  zip (seq 0 (length l)) l.

(** Lines 75-79: one entry of [worker_map]. *)
Definition locality_entry (key_to_part_dict : gmap string Part)
    (item : string * list string) : outcome (WorkerAddress * Part) :=
  let '(key, workers) := item in
  match Py.first workers with
  | Ret w =>
      match parse_host_port w with
      | Ret worker =>
          match key_to_part_dict !! key with
          | Some part => Ret (worker, part)
          | None => Raise (KeyErrorStr key)
          end
      | Raise e => Raise e
      | Hang => Hang
      end
  | Raise e => Raise e
  | Hang => Hang
  end.

Definition key_to_part (parts : list Part) : gmap string Part :=
  Py.dict (map (fun part => (key part, part)) parts).

Definition locality_map (c : Cluster) (parts : list Part)
    : outcome (list (WorkerAddress * Part)) :=
  mapO (locality_entry (key_to_part parts)) (who_has c).

(** Line 83: one entry of [worker_ranks]. *)
Definition rank_query (c : Cluster) (pw : Part * string) : M (nat * string) :=
  let '(p, worker) := pw in
  f <- submit (GetRank p) worker ;;
  v <- result c f NoTimeout ;;
  match v with
  | VRank rank => ret (rank, worker)
  | VFrame _ _ _ => lift (Raise ValueError)
  end.

(** Lines 87-88: one entry of [parts_to_worker_map]. *)
Definition pair_with_rank (rank_to_worker_dict : gmap nat string)
    (ip : nat * Part) : outcome (Part * string) :=
  let '(i, part) := ip in
  match rank_to_worker_dict !! i with
  | Some w => Ret (part, w)
  | None => Raise (KeyError i)
  end.

Definition dispatch (num_vertices : Scalar) (pw : Part * string) : M Future :=
  let '(part, worker) := pw in
  submit (MgPagerank part num_vertices) worker.

(** [ddf] is a dask dataframe, so the branch of line 63 is taken; the
    calls to [print] are left out.  [worker_map] is built and not read
    again. *)
Definition _get_mg_info (c : Cluster) (ddf : list Part) : M (list Future) :=
  parts <- materialize ddf ;;
  x0 <- client_who_has c ;;
  x <- client_has_what c ;;
  worker_map <- lift (locality_map c parts) ;;
  worker_ranks <- mapM (rank_query c) (zip parts x) ;;
  let rank_to_worker_dict := Py.dict worker_ranks in
  parts_to_worker_map <-
    lift (mapO (pair_with_rank rank_to_worker_dict) (enumerate parts)) ;;
  max_node_src_col <- compute_max 0 ddf ;;
  max_node_dest_col <- compute_max 1 ddf ;;
  let num_vertices :=
    scalar_succ (scalar_max max_node_src_col max_node_dest_col) in
  gpu_futures <- mapM (dispatch num_vertices) parts_to_worker_map ;;
  wait c gpu_futures ;;;
  ret gpu_futures.

(** * Specification vocabulary *)

(** ** Strings *)

Fixpoint count_char (c : ascii) (s : string) : nat :=
  match s with
  | EmptyString => O
  | String a t => if Ascii.eqb a c then S (count_char c t) else count_char c t
  end.

(** [sub] occurs somewhere in [s]. *)
Definition occurs (sub s : string) : Prop :=
  exists a b, s = a +:+ sub +:+ b.

Fixpoint all_digits (s : string) : bool :=
  match s with
  | EmptyString => true
  | String c t => Py.isdigit c && all_digits t
  end.

(** The value of a string of decimal digits, most significant first. *)
Fixpoint decimal (acc : Z) (s : string) : Z :=
  match s with
  | EmptyString => acc
  | String c t => decimal (10 * acc + Py.digit_val c) t
  end.

(** [suffix] is what [parse_host_port] keeps of [address]: all of it, or
    what follows the last scheme separator. *)
Definition after_scheme (address suffix : string) : Prop :=
  (~ occurs "://" address /\ suffix = address) \/
  (exists scheme, address = scheme +:+ "://" +:+ suffix /\ ~ occurs "://" suffix).

(** The parser of the specification: cut at the last colon, and read a
    port made of decimal digits. *)
Definition spec_parse_host_port (address : string) : outcome WorkerAddress :=
  let suffix :=
    match Py.rpartition "://" address with
    | Some (_, rest) => rest
    | None => address
    end in
  match Py.rpartition ":" suffix with
  | Some (host, port) =>
      match port with
      | EmptyString => Raise ValueError
      | _ => if all_digits port then Ret (host, decimal 0 port) else Raise ValueError
      end
  | None => Raise ValueError
  end.

(** ** The round *)

(** The future [client.submit(get_rank, p, workers=[w])] returns. *)
Definition rank_future (pw : Part * string) : Future :=
  {| task := GetRank pw.1; pin := pw.2 |}.

(** What one rank query gives the coordinator. *)
Definition rank_answer (c : Cluster) (pw : Part * string) : outcome (nat * string) :=
  match liveness (worker c pw.2) with
  | Alive => Ret (comm_rank (worker c pw.2), pw.2)
  | Failing => Raise (TaskError pw.2)
  | Unreachable => Hang
  end.

(** The client calls of the rank queries, up to the first that does not
    return. *)
Fixpoint rank_trace (c : Cluster) (l : list (Part * string)) : list Event :=
  match l with
  | [] => []
  | pw :: l' =>
      EvSubmit (rank_future pw) :: EvResult (rank_future pw) ::
      match liveness (worker c pw.2) with
      | Alive => rank_trace c l'
      | _ => []
      end
  end.

(** The future [client.submit(_mg_pagerank, part, num_vertices, workers=[w])]
    returns. *)
Definition compute_future (num_vertices : Scalar) (pw : Part * string) : Future :=
  {| task := MgPagerank pw.1 num_vertices; pin := pw.2 |}.

(** The client calls every round starts with. *)
Definition prologue (ddf : list Part) : list Event :=
  [EvMaterialize ddf; EvWhoHas; EvHasWhat].

Definition is_dispatch (e : Event) : bool :=
  match e with
  | EvSubmit {| task := MgPagerank _ _ |} => true
  | _ => false
  end.

Definition is_reduce (e : Event) : bool :=
  match e with
  | EvReduce _ => true
  | _ => false
  end.

(** Neither a reduction nor a compute task was requested. *)
Definition nothing_computed (tr : list Event) : Prop :=
  Forall (fun e => is_dispatch e = false /\ is_reduce e = false) tr.

(** The rows of the dataset, whatever its partitioning. *)
Definition all_rows (ddf : list Part) : list (Z * Z) :=
  concat (map rows ddf).

(** [m] is the greatest element of [xs]. *)
Definition is_max (xs : list Z) (m : Z) : Prop :=
  m ∈ xs /\ forall x, x ∈ xs -> x <= m.

(** The rank table of the specification: ranks and workers in one-to-one
    correspondence, the ranks being exactly those below the number of
    workers. *)
Definition rank_bijection (workers : list string) (d : gmap nat string) : Prop :=
  (forall r w, d !! r = Some w -> (r < length workers)%nat /\ w ∈ workers) /\
  (forall r, (r < length workers)%nat -> is_Some (d !! r)) /\
  (forall w, w ∈ workers -> exists r, d !! r = Some w) /\
  (forall r1 r2 w, d !! r1 = Some w -> d !! r2 = Some w -> r1 = r2).

(** The workers that are asked for their rank: [zip(parts, x)] stops at
    the shorter of the two lists. *)
Definition queried (c : Cluster) (ddf : list Part) : list string :=
  (zip ddf (has_what c)).*2.

(** The number a scalar stands for; none for NaN. *)
Definition scalar_value (a : Scalar) : option Z :=
  match a with
  | SInt z => Some z
  | SFloat z => Some z
  | SNaN => None
  end.

Definition has_rows (p : Part) : bool :=
  match rows p with
  | [] => false
  | _ => true
  end.

(** The scalar of a reduction whose value is [z]: an int64 when every
    partition has rows, a float64 otherwise. *)
Definition reduced (ddf : list Part) (z : Z) : Scalar :=
  if forallb has_rows ddf then SInt z else SFloat z.

(** Every vertex id of the dataset is an integer that float64 holds
    exactly, and so is its successor. *)
Definition ids_exact (ddf : list Part) : Prop :=
  forall s d, (s, d) ∈ all_rows ddf ->
    - 2 ^ 53 <= s < 2 ^ 53 /\ - 2 ^ 53 <= d < 2 ^ 53.

(** The client calls of the rank queries of [l], each answered. *)
Definition rank_calls (l : list (Part * string)) : list Event :=
  l ≫= fun pw => [EvSubmit (rank_future pw); EvResult (rank_future pw)].

(** ** Example clusters *)

Definition W1 : string := "tcp://10.0.0.1:8786".
Definition W2 : string := "tcp://10.0.0.2:8786".
Definition W3 : string := "tcp://10.0.0.3:8786".

Definition partA : Part := {| key := "A"; rows := [(0, 1); (1, 49)] |}.
Definition partB : Part := {| key := "B"; rows := [(50, 99); (98, 51)] |}.

(** The processes of a cluster, by address; nothing listens elsewhere. *)
Definition world (procs : list (string * Worker)) (address : string) : Worker :=
  default {| comm_rank := 0; liveness := Unreachable |} (Py.dict procs !! address).

Definition mpi (rank : nat) : Worker := {| comm_rank := rank; liveness := Alive |}.

(** Two workers; each holds the partition whose index is the other's rank. *)
Definition swapped_cluster : Cluster :=
  {| who_has := [("A", [W2]); ("B", [W1])];
     has_what := [W1; W2];
     worker := world [(W1, mpi 0); (W2, mpi 1)];
     kernel_raises := fun _ _ _ => false |}.


(** The kernel raises on partition B. *)
Definition failing_cluster : Cluster :=
  {| who_has := [("A", [W1]); ("B", [W2])];
     has_what := [W1; W2];
     worker := world [(W1, mpi 0); (W2, mpi 1)];
     kernel_raises := fun data _ _ => String.eqb (key data) "B" |}.

(** The second worker of the registry never answers. *)
Definition silent_cluster : Cluster :=
  {| who_has := [("A", [W1]); ("B", [W2])];
     has_what := [W1; W2];
     worker := world [(W1, mpi 0); (W2, {| comm_rank := 1; liveness := Unreachable |})];
     kernel_raises := fun _ _ _ => false |}.

(** Three MPI processes for two partitions; the registry lists rank 2
    first. *)
Definition three_worker_cluster : Cluster :=
  {| who_has := [("A", [W1]); ("B", [W2])];
     has_what := [W3; W1; W2];
     worker := world [(W1, mpi 0); (W2, mpi 1); (W3, mpi 2)];
     kernel_raises := fun _ _ _ => false |}.

(** Two partitions, one registered worker. *)
Definition one_worker_cluster : Cluster :=
  {| who_has := [("A", [W1]); ("B", [W1])];
     has_what := [W1];
     worker := world [(W1, mpi 0)];
     kernel_raises := fun _ _ _ => false |}.


(** The first registered worker raises in every task. *)
Definition crashing_cluster : Cluster :=
  {| who_has := [("A", [W1]); ("B", [W2])];
     has_what := [W1; W2];
     worker := world [(W1, {| comm_rank := 0; liveness := Failing |}); (W2, mpi 1)];
     kernel_raises := fun _ _ _ => false |}.



(** The affinity of the specification: every compute task of a round that
    returns is pinned to the worker the locality map records for its
    partition. *)
Definition pinned_to_holders (c : Cluster) (ddf : list Part) : Prop :=
  forall futs tr wm f p g,
    _get_mg_info c ddf [] = (Ret futs, tr) ->
    locality_map c ddf = Ret wm ->
    EvSubmit f ∈ tr -> task f = MgPagerank p g ->
    exists wa, parse_host_port (pin f) = Ret wa /\ (wa, p) ∈ wm.

(** ** The debug path: [_print_data] and [print_data] *)

(** What [_print_data] writes on the standard output of its worker. *)
Inductive Printed : Type :=
  | PrRank (rank : nat)     (* print("RANK:", rank) *)
  | PrLabel                 (* print("DATA:") *)
  | PrData (data : Part).   (* print(data) *)

Definition _print_data (proc : Worker) (data : Part) : list Printed :=
  let rank := comm_rank proc in
  [PrRank rank; PrLabel; PrData data].

(** [client.submit(_print_data, part, workers=[worker])], where [worker] is
    the (host, port) pair of [worker_map]. *)
Record PrintFuture : Type := { printed_part : Part; print_pin : WorkerAddress }.

Inductive PrintEvent : Type :=
  | PvMaterialize (parts : list Part)
  | PvWhoHas
  | PvSubmit (f : PrintFuture)
  | PvWait (fs : list PrintFuture).

(** How the task behind a print future ends.  [listening] gives the
    process the scheduler reaches for a (host, port) restriction. *)
Definition run_print (listening : WorkerAddress -> Worker) (f : PrintFuture)
    : outcome (list Printed) :=
  let proc := listening (print_pin f) in
  match liveness proc with
  | Unreachable => Hang
  | Failing => Raise (TaskError (print_pin f).1)
  | Alive => Ret (_print_data proc (printed_part f))
  end.

Definition print_resolved (listening : WorkerAddress -> Worker) (f : PrintFuture) : bool :=
  match run_print listening f with
  | Hang => false
  | _ => true
  end.

(** [print_data], the trace of client calls passed along; the calls to
    [print] on the coordinator are left out. *)
Definition print_data (listening : WorkerAddress -> Worker) (c : Cluster)
    (ddf : list Part) (tr : list PrintEvent)
    : outcome (list PrintFuture) * list PrintEvent :=
  let parts := ddf in
  let tr := tr ++ [PvMaterialize parts; PvWhoHas] in
  match locality_map c parts with
  | Ret worker_map =>
      let gpu_futures :=
        (fun wp : WorkerAddress * Part =>
           {| printed_part := wp.2; print_pin := wp.1 |}) <$> worker_map in
      let tr := tr ++ (PvSubmit <$> gpu_futures) in
      let tr := tr ++ [PvWait gpu_futures] in
      (if forallb (print_resolved listening) gpu_futures
       then Ret gpu_futures else Hang, tr)
  | Raise e => (Raise e, tr)
  | Hang => (Hang, tr)
  end.

(** ** Vocabulary of the further properties *)

(** The submission of a rank query. *)
Definition is_rank_submit (e : Event) : bool :=
  match e with
  | EvSubmit {| task := GetRank _ |} => true
  | _ => false
  end.

(** One entry of the location report and the entry of [worker_map] made
    from it. *)
Definition resolves_to (ddf : list Part) (item : string * list string)
    (entry : WorkerAddress * Part) : Prop :=
  exists w rest,
    item.2 = w :: rest /\ parse_host_port w = Ret entry.1 /\
    key_to_part ddf !! item.1 = Some entry.2.

(** A process listening at every address. *)
Definition everywhere (address : WorkerAddress) : Worker :=
  {| comm_rank := 0; liveness := Alive |}.

(** Two workers that each hold one partition. *)
Definition local_cluster : Cluster :=
  {| who_has := [("B", [W2]); ("A", [W1])];
     has_what := [W1; W2];
     worker := world [(W1, mpi 0); (W2, mpi 1)];
     kernel_raises := fun _ _ _ => false |}.

(** * Properties *)

(** ** Examples of parsing *)

Example parse_tcp : parse_host_port "tcp://10.0.0.5:8786" = Ret ("10.0.0.5", 8786).
Proof. reflexivity. Qed.

Example parse_bare : parse_host_port "10.0.0.5:8786" = Ret ("10.0.0.5", 8786).
Proof. reflexivity. Qed.

Example parse_ipv6 : parse_host_port "tcp://[::1]:8786" = Raise ValueError.
Proof. reflexivity. Qed.

Example parse_negative : parse_host_port "h:-5" = Ret ("h", -5).
Proof. reflexivity. Qed.

Example parse_underscore : parse_host_port "h: 8_0 " = Ret ("h", 80).
Proof. reflexivity. Qed.

Example parse_noport : parse_host_port "localhost" = Raise ValueError.
Proof. reflexivity. Qed.


(** ** Strings *)

Section StrLemmas.

#[local] Arguments String.append : simpl nomatch.

Lemma append_assoc (a b c : string) : (a +:+ b) +:+ c = a +:+ b +:+ c.
Proof. induction a; simpl; congruence. Qed.

Lemma count_char_app c a b :
  count_char c (a +:+ b) = (count_char c a + count_char c b)%nat.
Proof. induction a as [|x a IH]; simpl; [done|]. destruct (Ascii.eqb x c); lia. Qed.

Lemma startswith_spec p s :
  Py.startswith p s = true <-> exists r, s = p +:+ r.
Proof.
  revert s. induction p as [|a p IH]; intros s; simpl.
  - split; eauto.
  - destruct s as [|b s].
    + split; [done|]. intros [r Hr]. discriminate.
    + destruct (Ascii.eqb_spec a b) as [->|Hne].
      * rewrite IH. split; intros [r Hr]; exists r; congruence.
      * split; [done|]. intros [r Hr]. congruence.
Qed.

Lemma contains_spec sub s : Py.contains sub s = true <-> occurs sub s.
Proof.
  induction s as [|c s IH]; simpl.
  - rewrite orb_false_r, startswith_spec. split.
    + intros [r Hr]. by exists EmptyString, r.
    + intros ([|x a] & b & Hab); [eauto | discriminate].
  - rewrite orb_true_iff, IH, startswith_spec. split.
    + intros [[r Hr] | (a & b & Hab)].
      * by exists EmptyString, r.
      * exists (String c a), b. simpl. congruence.
    + intros ([|x a] & b & Hab); simpl in Hab.
      * left. eauto.
      * right. exists a, b. congruence.
Qed.

Lemma contains_false_tail sub c s :
  Py.contains sub (String c s) = false -> Py.contains sub s = false.
Proof. simpl. intros H. by apply orb_false_elim in H as [_ ?]. Qed.

Lemma contains_false_drop sub n s :
  Py.contains sub s = false -> Py.contains sub (Py.drop n s) = false.
Proof.
  revert s. induction n as [|n IH]; intros [|c s] H; simpl; try done.
  apply IH. by eapply contains_false_tail.
Qed.

Lemma rpartition_None sep s :
  Py.rpartition sep s = None <->
  Py.contains sep s = false \/ s = EmptyString /\ sep = EmptyString.
Proof.
  induction s as [|c s IH].
  - simpl. destruct sep; simpl; split; auto.
  - cbn [Py.rpartition Py.contains].
    destruct (Py.rpartition sep s) as [[a b]|].
    + split; [done|]. intros [H|[? _]]; [|done].
      apply orb_false_elim in H as [_ H].
      assert (Some (a, b) = None) as Hn by (apply IH; auto). done.
    + destruct (proj1 IH eq_refl) as [Hc|[-> ->]].
      * rewrite Hc, orb_false_r.
        destruct (Py.startswith sep (String c s)); split; auto; try done.
        intros [?|[? _]]; done.
      * simpl. split; [done|]. intros [?|[? _]]; done.
Qed.

Lemma drop_app_length a b : Py.drop (String.length a) (a +:+ b) = b.
Proof. induction a; simpl; auto. Qed.

(** [rpartition] cuts at an occurrence of the separator, and the
    separator does not occur after the cut. *)
Lemma rpartition_Some sep s a b :
  sep <> EmptyString ->
  Py.rpartition sep s = Some (a, b) ->
  s = a +:+ sep +:+ b /\ Py.contains sep b = false.
Proof.
  intros Hsep. revert a. induction s as [|c s IH]; intros a; [done|].
  cbn [Py.rpartition].
  destruct (Py.rpartition sep s) as [[a' b']|] eqn:Hr.
  - intros [= <- <-]. destruct (IH a' eq_refl) as [-> Hb]. done.
  - destruct (Py.startswith sep (String c s)) eqn:Hs; [|done].
    intros [= <- <-]. apply startswith_spec in Hs as [r Hr'].
    rewrite Hr', drop_app_length. split; [done|].
    apply rpartition_None in Hr as [Hr|[_ ?]]; [|done].
    destruct sep as [|x sep]; [done|]. simpl in Hr'. injection Hr' as _ ->.
    replace r with (Py.drop (String.length sep) (sep +:+ r))
      by apply drop_app_length.
    by apply contains_false_drop.
Qed.

Lemma split_nonempty c s : Py.split c s <> [].
Proof.
  destruct s as [|a s]; simpl; [done|].
  destruct (Ascii.eqb a c); [done|]. by destruct (Py.split c s).
Qed.

Lemma split_length c s : length (Py.split c s) = S (count_char c s).
Proof.
  induction s as [|a s IH]; simpl; [done|].
  destruct (Ascii.eqb a c); simpl; [by rewrite IH|].
  destruct (Py.split c s); simpl in *; done.
Qed.

Lemma split_cons c s h r :
  Py.split c s = h :: r ->
  count_char c h = O /\
  (r = [] /\ s = h \/ exists t, s = h +:+ String c t /\ Py.split c t = r).
Proof.
  revert h r. induction s as [|a s IH]; intros h r; simpl.
  - intros [= <- <-]. auto.
  - destruct (Ascii.eqb_spec a c) as [->|Hne].
    + intros [= <- <-]. split; [done|]. right. by exists s.
    + destruct (Py.split c s) as [|h' r'] eqn:Hs; [by apply split_nonempty in Hs|].
      intros [= <- <-]. destruct (IH h' r' eq_refl) as [Hh Hcase].
      split.
      * simpl. by destruct (Ascii.eqb_spec a c).
      * destruct Hcase as [[-> ->]|(t & -> & Ht)]; [by left|].
        right. by exists t.
Qed.

Lemma split_no_sep c s : count_char c s = O -> Py.split c s = [s].
Proof.
  induction s as [|a s IH]; simpl; [done|].
  destruct (Ascii.eqb a c); [done|]. intros H. by rewrite IH.
Qed.

Lemma split_app c h t :
  count_char c h = O -> Py.split c (h +:+ String c t) = h :: Py.split c t.
Proof.
  induction h as [|a h IH]; simpl.
  - by rewrite Ascii.eqb_refl.
  - destruct (Ascii.eqb a c); [done|]. intros H. by rewrite IH.
Qed.

(** Two segments: exactly one separator. *)
Lemma split_two c s h p :
  Py.split c s = [h; p] <->
  s = h +:+ String c p /\ count_char c s = 1%nat.
Proof.
  split.
  - intros H. pose proof (split_length c s) as Hl. rewrite H in Hl.
    apply split_cons in H as [Hh [[? _]|(t & -> & Ht)]]; [done|].
    apply split_cons in Ht as [Hp [[_ ->]|(t' & _ & Ht')]].
    + split; [done|]. simpl in Hl. lia.
    + by apply split_nonempty in Ht'.
  - intros [-> Hc]. rewrite count_char_app in Hc. simpl in Hc.
    rewrite Ascii.eqb_refl in Hc.
    rewrite split_app by lia. rewrite split_no_sep by lia. done.
Qed.

End StrLemmas.

(** ** The address parser *)

Section Parser.

#[local] Arguments String.append : simpl nomatch.

Lemma isdigit_not_special c :
  Py.isdigit c = true ->
  Py.int_space c = false /\ Ascii.eqb c ":" = false /\ Ascii.eqb c "_" = false /\
  Ascii.eqb c "+" = false /\ Ascii.eqb c "-" = false /\ 0 <= Py.digit_val c <= 9.
Proof.
  destruct c as [[] [] [] [] [] [] [] []]; intros H;
    first [discriminate H | vm_compute; repeat split; congruence].
Qed.

Lemma all_digits_no_colon s : all_digits s = true -> count_char ":" s = O.
Proof.
  induction s as [|c s IH]; simpl; [done|].
  intros [Hc Hs]%andb_true_iff.
  apply isdigit_not_special in Hc as (_ & -> & _). auto.
Qed.

Lemma no_colon_no_scheme s : count_char ":" s = O -> Py.contains "://" s = false.
Proof.
  induction s as [|c s IH]; [done|].
  cbn [count_char Py.contains Py.startswith].
  destruct (Ascii.eqb_spec c ":") as [->|Hne]; [done|].
  intros H. rewrite Ascii.eqb_sym. destruct (Ascii.eqb_spec c ":"); [done|].
  simpl. auto.
Qed.

Lemma startswith_scheme_digit d port :
  Py.isdigit d = true -> Py.startswith "://" (String ":" (String d port)) = false.
Proof.
  destruct d as [[] [] [] [] [] [] [] []]; intros H;
    first [discriminate H | reflexivity].
Qed.

Lemma host_port_no_scheme host port :
  count_char ":" host = O -> all_digits port = true ->
  Py.contains "://" (host +:+ ":" +:+ port) = false.
Proof.
  intros Hh Hp. induction host as [|c host IH].
  - change (Py.startswith "://" (String ":" port) || Py.contains "://" port = false).
    rewrite (no_colon_no_scheme port) by by apply all_digits_no_colon.
    destruct port as [|d port]; [done|].
    apply andb_true_iff in Hp as [Hd _]. by rewrite startswith_scheme_digit.
  - revert Hh. cbn [count_char]. destruct (Ascii.eqb_spec c ":") as [->|Hne]; [done|].
    intros Hh. change (String c host +:+ ":" +:+ port)
      with (String c (host +:+ ":" +:+ port)).
    cbn [Py.contains Py.startswith]. rewrite Ascii.eqb_sym.
    destruct (Ascii.eqb_spec c ":"); [done|]. simpl. auto.
Qed.

Lemma rpartition_cons sep c t :
  Py.rpartition sep (String c t) =
    match Py.rpartition sep t with
    | Some (a, b) => Some (String c a, b)
    | None =>
        if Py.startswith sep (String c t)
        then Some (EmptyString, Py.drop (String.length sep) (String c t))
        else None
    end.
Proof. reflexivity. Qed.

Lemma rpartition_scheme scheme rest :
  Py.contains "://" rest = false ->
  Py.rpartition "://" (scheme +:+ "://" +:+ rest) = Some (scheme, rest).
Proof.
  intros Hr. induction scheme as [|c scheme IH].
  - change (EmptyString +:+ "://" +:+ rest)
      with (String ":" (String "/" (String "/" rest))).
    rewrite rpartition_cons.
    assert (Py.rpartition "://" (String "/" (String "/" rest)) = None) as ->.
    { apply rpartition_None. left.
      change (false || (false || Py.contains "://" rest) = false).
      by rewrite Hr. }
    reflexivity.
  - change (String c scheme +:+ "://" +:+ rest)
      with (String c (scheme +:+ "://" +:+ rest)).
    rewrite rpartition_cons. by rewrite IH.
Qed.

Lemma rstrip_digits s : all_digits s = true -> Py.rstrip s = s.
Proof.
  induction s as [|c s IH]; simpl; [done|].
  intros [Hc Hs]%andb_true_iff. rewrite (IH Hs).
  apply isdigit_not_special in Hc as (-> & _). by destruct s.
Qed.

Lemma digits_decimal acc b s :
  all_digits s = true -> s <> EmptyString \/ b = true ->
  Py.digits acc b s = Some (decimal acc s).
Proof.
  revert acc b. induction s as [|c s IH]; intros acc b; simpl.
  - intros _ [? | ->]; done.
  - intros [Hc Hs]%andb_true_iff _. rewrite Hc. apply IH; auto.
Qed.

Lemma decimal_nonneg acc s : all_digits s = true -> 0 <= acc -> 0 <= decimal acc s.
Proof.
  revert acc. induction s as [|c s IH]; intros acc; simpl; [done|].
  intros [Hc Hs]%andb_true_iff Hacc. apply IH; [done|].
  apply isdigit_not_special in Hc as (_ & _ & _ & _ & _ & Hv). lia.
Qed.

(** [int] reads a string of digits as its decimal value. *)
Lemma int_digits s :
  all_digits s = true -> s <> EmptyString -> Py.int s = Some (decimal 0 s).
Proof.
  intros Hs Hne. unfold Py.int, Py.strip.
  destruct s as [|c s]; [done|].
  pose proof Hs as Hs'. simpl in Hs'. apply andb_true_iff in Hs' as [Hc _].
  assert (Py.lstrip (String c s) = String c s) as ->.
  { simpl. by apply isdigit_not_special in Hc as (-> & _). }
  rewrite (rstrip_digits _ Hs).
  transitivity (Py.digits 0 false (String c s)).
  - destruct c as [[] [] [] [] [] [] [] []]; first [discriminate Hc | reflexivity].
  - apply digits_decimal; auto.
Qed.

(** The first two lines of [parse_host_port] keep the part after the last
    scheme separator. *)
Lemma parse_host_port_suffix address :
  exists suffix, after_scheme address suffix /\
    parse_host_port address =
      match Py.split ":" suffix with
      | [host; port] =>
          match Py.int port with
          | Some port => Ret (host, port)
          | None => Raise ValueError
          end
      | _ => Raise ValueError
      end.
Proof.
  unfold parse_host_port, Py.rsplit1.
  destruct (Py.contains "://" address) eqn:Hc.
  - destruct (Py.rpartition "://" address) as [[a b]|] eqn:Hr.
    + exists b. split; [|done]. right. exists a.
      apply rpartition_Some in Hr as [-> Hb]; [|done]. split; [done|].
      intros Ho%contains_spec. congruence.
    + apply rpartition_None in Hr as [Hr|[_ ?]]; congruence.
  - exists address. split; [|done]. left. split; [|done].
    intros Ho%contains_spec. congruence.
Qed.

End Parser.

Section ParserClaims.

#[local] Arguments String.append : simpl nomatch.

Lemma split_host_port host port :
  count_char ":" host = O -> count_char ":" port = O ->
  Py.split ":" (host +:+ ":" +:+ port) = [host; port].
Proof.
  intros Hh Hp. apply split_two. split; [done|].
  rewrite count_char_app. simpl. lia.
Qed.

(** C7, as the code has it: the parser keeps what follows the last
    scheme separator, needs exactly one colon in it, and reads the
    segment after that colon with [int]; it raises [ValueError] exactly
    when there is not exactly one colon or [int] rejects the segment, and
    it never ends otherwise than by returning or by that error. *)
Theorem parse_host_port_outcome address :
  exists suffix, after_scheme address suffix /\
    (forall host port,
       parse_host_port address = Ret (host, port) <->
       count_char ":" suffix = 1%nat /\
       exists seg, suffix = host +:+ ":" +:+ seg /\ Py.int seg = Some port) /\
    (parse_host_port address = Raise ValueError <->
       count_char ":" suffix <> 1%nat \/
       exists host seg, suffix = host +:+ ":" +:+ seg /\ Py.int seg = None) /\
    (parse_host_port address = Raise ValueError \/
     exists wa, parse_host_port address = Ret wa).
Proof.
  destruct (parse_host_port_suffix address) as (suffix & Hsuf & ->).
  exists suffix. split; [done|].
  pose proof (split_length ":" suffix) as Hlen.
  destruct (Py.split ":" suffix) as [|h [|p [|q r]]] eqn:Hsplit;
    simpl in Hlen.
  1, 2, 4: repeat split; auto; try done; try lia;
    try (intros [? _]; lia); try (left; lia).
  apply split_two in Hsplit as [Hs Hc].
  assert (forall host seg, suffix = host +:+ ":" +:+ seg -> host = h /\ seg = p) as Huniq.
  { intros host seg Hhs.
    assert (Py.split ":" suffix = [host; seg]) as H1 by by apply split_two.
    assert (Py.split ":" suffix = [h; p]) as H2 by by apply split_two.
    rewrite H1 in H2. by injection H2. }
  destruct (Py.int p) as [v|] eqn:Hint.
  - repeat split.
    + done.
    + injection H as <- <-. by exists p.
    + intros (_ & seg & [-> ->]%Huniq & Hseg). congruence.
    + done.
    + intros [?|(host & seg & [_ ->]%Huniq & Hseg)]; [lia | congruence].
    + right. eauto.
  - repeat split; try done.
    + intros (_ & seg & [-> ->]%Huniq & Hseg). congruence.
    + intros _. right. by exists h, p.
    + by left.
Qed.

(** C7, counterexample: an IPv6 worker address has a colon separator and
    a numeric port after its last colon, and the parser raises. *)
Lemma parse_host_port_ipv6_rejected :
  parse_host_port "tcp://[::1]:8786" = Raise ValueError /\
  spec_parse_host_port "tcp://[::1]:8786" = Ret ("[::1]", 8786).
Proof. split; reflexivity. Qed.

(** The port that [int] reads may be negative. *)
Example parse_host_port_negative_port :
  parse_host_port "10.0.0.5:-1" = Ret ("10.0.0.5", -1) /\
  spec_parse_host_port "10.0.0.5:-1" = Raise ValueError.
Proof. split; reflexivity. Qed.

Lemma rpartition_prefix sep x s a b :
  Py.rpartition sep s = Some (a, b) ->
  Py.rpartition sep (x +:+ s) = Some (x +:+ a, b).
Proof.
  intros Hs. induction x as [|c x IH]; [done|].
  change (String c x +:+ s) with (String c (x +:+ s)).
  rewrite rpartition_cons. by rewrite IH.
Qed.

(** What stands before a scheme separator never matters. *)
Lemma parse_host_port_prefix scheme rest :
  parse_host_port (scheme +:+ "://" +:+ rest) = parse_host_port rest.
Proof.
  unfold parse_host_port, Py.rsplit1.
  assert (Py.contains "://" (scheme +:+ "://" +:+ rest) = true) as ->.
  { apply contains_spec. by exists scheme, rest. }
  destruct (Py.contains "://" rest) eqn:Hc.
  - destruct (Py.rpartition "://" rest) as [[a b]|] eqn:Hr.
    + rewrite <- append_assoc.
      by rewrite (rpartition_prefix "://" (scheme +:+ "://") rest a b Hr).
    + apply rpartition_None in Hr as [Hr|[_ ?]]; congruence.
  - by rewrite rpartition_scheme.
Qed.

(** C8, as the code has it: before a port of decimal digits, the outcome
    is the same with and without a scheme prefix; it is the pair of the
    host and the value of the port when the host has no colon, and
    [ValueError] when the host has a colon and no scheme separator. *)
Theorem parse_host_port_scheme_prefix scheme host port :
  all_digits port = true -> port <> EmptyString ->
  parse_host_port (scheme +:+ "://" +:+ host +:+ ":" +:+ port)
    = parse_host_port (host +:+ ":" +:+ port) /\
  (count_char ":" host = O ->
     parse_host_port (host +:+ ":" +:+ port) = Ret (host, decimal 0 port) /\
     0 <= decimal 0 port) /\
  (count_char ":" host <> O -> ~ occurs "://" (host +:+ ":" +:+ port) ->
     parse_host_port (host +:+ ":" +:+ port) = Raise ValueError).
Proof.
  intros Hp Hne. split; [apply parse_host_port_prefix|]. split.
  - intros Hh.
    pose proof (host_port_no_scheme host port Hh Hp) as Hno.
    pose proof (split_host_port host port Hh (all_digits_no_colon _ Hp)) as Hsp.
    pose proof (int_digits port Hp Hne) as Hint.
    split; [|by apply decimal_nonneg].
    unfold parse_host_port. rewrite Hno. cbv beta iota. by rewrite Hsp, Hint.
  - intros Hh Hno.
    assert (Py.contains "://" (host +:+ ":" +:+ port) = false) as Hc.
    { destruct (Py.contains "://" _) eqn:Hc; [|done]. by apply contains_spec in Hc. }
    unfold parse_host_port. rewrite Hc. cbv beta iota.
    pose proof (split_length ":" (host +:+ ":" +:+ port)) as Hlen.
    rewrite count_char_app in Hlen.
    destruct (Py.split ":" (host +:+ ":" +:+ port)) as [|h [|p [|q r]]]; try done.
    change (":" +:+ port) with (String ":" port) in Hlen.
    cbn [count_char length] in Hlen. rewrite Ascii.eqb_refl in Hlen. lia.
Qed.

Lemma parse_host_port_scheme_prefix_witness :
  parse_host_port "tcp://10.0.0.5:8786" = parse_host_port "10.0.0.5:8786" /\
  (count_char ":" "10.0.0.5" = O ->
     parse_host_port "10.0.0.5:8786" = Ret ("10.0.0.5", 8786) /\ 0 <= 8786) /\
  (count_char ":" "10.0.0.5" <> O -> ~ occurs "://" "10.0.0.5:8786" ->
     parse_host_port "10.0.0.5:8786" = Raise ValueError).
Proof.
  apply (parse_host_port_scheme_prefix "tcp" "10.0.0.5" "8786");
    [reflexivity | discriminate].
Defined.

(** C8, counterexample: an IPv6 host and a numeric port make a host:port
    suffix, split at its last colon, and the parser returns no pair for
    it, with or without the scheme prefix. *)
Lemma parse_host_port_ipv6_no_pair :
  spec_parse_host_port "[::1]:8786" = Ret ("[::1]", 8786) /\
  parse_host_port "tcp://[::1]:8786" = Raise ValueError /\
  parse_host_port "[::1]:8786" = Raise ValueError.
Proof. repeat split; reflexivity. Qed.

End ParserClaims.

(** ** The coordinator *)

Section Monad.

Lemma bind_Ret {A B} (m : M A) (k : A -> M B) tr a tr' :
  m tr = (Ret a, tr') -> bind m k tr = k a tr'.
Proof. unfold bind. by intros ->. Qed.

Lemma bind_Raise {A B} (m : M A) (k : A -> M B) tr e tr' :
  m tr = (Raise e, tr') -> bind m k tr = (Raise e, tr').
Proof. unfold bind. by intros ->. Qed.

Lemma bind_Hang {A B} (m : M A) (k : A -> M B) tr tr' :
  m tr = (Hang, tr') -> bind m k tr = (Hang, tr').
Proof. unfold bind. by intros ->. Qed.

Lemma rank_query_run c pw tr :
  rank_query c pw tr =
    (rank_answer c pw, tr ++ [EvSubmit (rank_future pw); EvResult (rank_future pw)]).
Proof.
  destruct pw as [p w].
  unfold rank_query, rank_answer, submit, result, bind, emit, ret, lift, run,
    rank_future, get_rank.
  simpl. rewrite <- !app_assoc. simpl.
  by destruct (liveness (worker c w)).
Qed.

Lemma mapM_rank_query c l tr :
  mapM (rank_query c) l tr = (mapO (rank_answer c) l, tr ++ rank_trace c l).
Proof.
  revert tr. induction l as [|pw l IH]; intros tr.
  - simpl. unfold ret. by rewrite app_nil_r.
  - cbn [mapM mapO rank_trace]. unfold bind at 1. rewrite rank_query_run.
    assert (rank_answer c pw =
      match liveness (worker c pw.2) with
      | Alive => Ret (comm_rank (worker c pw.2), pw.2)
      | Failing => Raise (TaskError pw.2)
      | Unreachable => Hang
      end) as Ha by done.
    destruct (liveness (worker c pw.2)); rewrite Ha; simpl.
    2, 3: done.
    unfold bind. rewrite IH, <- app_assoc. unfold ret. simpl.
    by destruct (mapO (rank_answer c) l).
Qed.

Lemma mapM_dispatch nv l tr :
  mapM (dispatch nv) l tr =
    (Ret (compute_future nv <$> l), tr ++ (EvSubmit <$> (compute_future nv <$> l))).
Proof.
  revert tr. induction l as [|[p w] l IH]; intros tr.
  - simpl. unfold ret. by rewrite app_nil_r.
  - cbn [mapM]. unfold bind at 1. unfold dispatch at 1, submit, bind, emit, ret.
    simpl. rewrite IH, <- app_assoc. done.
Qed.

(** The whole round, stage by stage. *)
Lemma get_mg_info_run c ddf :
  _get_mg_info c ddf [] =
    match locality_map c ddf with
    | Ret _ =>
        let pairs := zip ddf (has_what c) in
        match mapO (rank_answer c) pairs with
        | Ret worker_ranks =>
            match mapO (pair_with_rank (Py.dict worker_ranks)) (enumerate ddf) with
            | Ret parts_to_worker_map =>
                let gpu_futures :=
                  compute_future (vertex_count ddf) <$> parts_to_worker_map in
                (if forallb (resolved c) gpu_futures then Ret gpu_futures else Hang,
                 prologue ddf ++ rank_trace c pairs ++
                 [EvReduce 0; EvReduce 1] ++ (EvSubmit <$> gpu_futures) ++
                 [EvWait gpu_futures])
            | Raise e => (Raise e, prologue ddf ++ rank_trace c pairs)
            | Hang => (Hang, prologue ddf ++ rank_trace c pairs)
            end
        | Raise e => (Raise e, prologue ddf ++ rank_trace c pairs)
        | Hang => (Hang, prologue ddf ++ rank_trace c pairs)
        end
    | Raise e => (Raise e, prologue ddf)
    | Hang => (Hang, prologue ddf)
    end.
Proof.
  unfold _get_mg_info, materialize, client_who_has, client_has_what.
  unfold bind at 1 2 3 4 5 6 7. unfold emit, ret, lift. simpl.
  fold (prologue ddf).
  destruct (locality_map c ddf) as [wm| |]; [|done..].
  unfold bind at 1. rewrite mapM_rank_query.
  destruct (mapO (rank_answer c) (zip ddf (has_what c))) as [wr| |]; [|done..].
  unfold bind at 1.
  destruct (mapO (pair_with_rank (Py.dict wr)) (enumerate ddf)) as [pw| |]; [|done..].
  unfold compute_max, wait, bind, emit, ret, lift. simpl.
  rewrite mapM_dispatch. fold (vertex_count ddf).
  rewrite <- !app_assoc. simpl.
  destruct (forallb (resolved c) (compute_future (vertex_count ddf) <$> pw));
    simpl; by rewrite <- ?app_assoc.
Qed.

End Monad.

(** ** Loops and dictionaries *)

Section Loops.

Context {A B : Type} (f : A -> outcome B).

Lemma mapO_Ret l bs :
  mapO f l = Ret bs <-> Forall2 (fun a b => f a = Ret b) l bs.
Proof.
  revert bs. induction l as [|a l IH]; intros bs; simpl.
  - split; [intros [= <-]; constructor | by inversion 1].
  - destruct (f a) as [b| |] eqn:Hfa.
    + destruct (mapO f l) as [bs'| |] eqn:Hl.
      * split.
        -- intros [= <-]. constructor; [done|]. by apply IH.
        -- inversion 1 as [|? b' ? bs'' Hb Hbs]; subst.
           apply IH in Hbs. rewrite Hfa in Hb. congruence.
      * split; [done|]. inversion 1 as [|? b' ? bs'' Hb Hbs]; subst.
        by apply IH in Hbs.
      * split; [done|]. inversion 1 as [|? b' ? bs'' Hb Hbs]; subst.
        by apply IH in Hbs.
    + split; [done|]. inversion 1; congruence.
    + split; [done|]. inversion 1; congruence.
Qed.

(** The loop ends as its first element that does not return. *)
Lemma mapO_stop pre a post :
  Forall (fun x => exists b, f x = Ret b) pre ->
  (forall b, f a <> Ret b) ->
  mapO f (pre ++ a :: post) =
    match f a with
    | Ret _ => Hang
    | Raise e => Raise e
    | Hang => Hang
    end.
Proof.
  intros Hpre Ha. induction Hpre as [|x pre [b Hb] _ IH]; simpl.
  - destruct (f a) as [b| |]; [by destruct (Ha b)|done..].
  - rewrite Hb, IH. by destruct (f a).
Qed.

(** A loop that does not return stopped at some element. *)
Lemma mapO_not_Ret l :
  (forall bs, mapO f l <> Ret bs) ->
  exists pre a post, l = pre ++ a :: post /\
    Forall (fun x => exists b, f x = Ret b) pre /\ (forall b, f a <> Ret b).
Proof.
  induction l as [|a l IH]; simpl; intros H.
  - by destruct (H []).
  - destruct (f a) as [b| |] eqn:Hfa.
    + destruct IH as (pre & a' & post & -> & Hpre & Ha').
      { intros bs Hbs. rewrite Hbs in H. by destruct (H (b :: bs)). }
      exists (a :: pre), a', post. repeat split; [|done].
      constructor; eauto.
    + exists [], a, l. repeat split; [constructor|]. congruence.
    + exists [], a, l. repeat split; [constructor|]. congruence.
Qed.

End Loops.

Section Dict.

Context `{Countable K} {V : Type}.

Lemma dict_snoc (l : list (K * V)) k v :
  Py.dict (l ++ [(k, v)]) = <[k := v]> (Py.dict l).
Proof. unfold Py.dict. by rewrite foldl_app. Qed.

Lemma dict_lookup_None (l : list (K * V)) k :
  Py.dict l !! k = None <-> k ∉ l.*1.
Proof.
  induction l as [|[k' v'] l IH] using rev_ind.
  - split; [intros _; apply not_elem_of_nil | done].
  - rewrite dict_snoc, fmap_app, lookup_insert_None, IH. simpl.
    rewrite not_elem_of_app, list_elem_of_singleton. naive_solver.
Qed.

(** A key is bound to the value of its last pair. *)
Lemma dict_lookup_Some (l : list (K * V)) k v :
  Py.dict l !! k = Some v <->
  exists l1 l2, l = l1 ++ (k, v) :: l2 /\ k ∉ l2.*1.
Proof.
  induction l as [|[k' v'] l IH] using rev_ind.
  - split; [done|]. intros (l1 & l2 & Hl & _). by destruct l1.
  - rewrite dict_snoc. destruct (decide (k' = k)) as [->|Hne].
    + rewrite lookup_insert_eq. split.
      * intros [= ->]. exists l, []. split; [done|]. apply not_elem_of_nil.
      * intros (l1 & l2 & Hl & Hk).
        destruct l2 as [|x l2 _] using rev_ind.
        -- apply app_inj_tail in Hl as [_ [= ->]]. done.
        -- rewrite app_comm_cons, app_assoc in Hl.
           apply app_inj_tail in Hl as [_ <-].
           rewrite fmap_app in Hk. simpl in Hk. set_solver.
    + rewrite lookup_insert_ne by done. rewrite IH. split.
      * intros (l1 & l2 & -> & Hk). exists l1, (l2 ++ [(k', v')]).
        rewrite <- app_assoc. split; [done|].
        rewrite fmap_app. simpl. set_solver.
      * intros (l1 & l2 & Hl & Hk).
        destruct l2 as [|x l2 _] using rev_ind.
        -- apply app_inj_tail in Hl as [_ [= ? ?]]. done.
        -- rewrite app_comm_cons, app_assoc in Hl.
           apply app_inj_tail in Hl as [-> <-].
           exists l1, l2. split; [done|].
           rewrite fmap_app in Hk. set_solver.
Qed.

Lemma dict_lookup_elem (l : list (K * V)) k v :
  Py.dict l !! k = Some v -> (k, v) ∈ l.
Proof.
  intros (l1 & l2 & -> & _)%dict_lookup_Some. set_solver.
Qed.

(** When no key is repeated, every pair is a binding. *)
Lemma dict_lookup_NoDup (l : list (K * V)) k v :
  NoDup l.*1 -> (k, v) ∈ l -> Py.dict l !! k = Some v.
Proof.
  intros Hnd (l1 & l2 & ->)%list_elem_of_split.
  apply dict_lookup_Some. exists l1, l2. split; [done|].
  rewrite fmap_app in Hnd. simpl in Hnd.
  apply NoDup_app in Hnd as (_ & _ & Hnd). by apply NoDup_cons in Hnd as [? _].
Qed.

End Dict.

(** ** The global parameter *)

Section Reduction.

Lemma nanmax_assoc a b c : nanmax (nanmax a b) c = nanmax a (nanmax b c).
Proof. destruct a, b, c; simpl; f_equal; lia. Qed.

Lemma nanmax_None_r a : nanmax a None = a.
Proof. by destruct a. Qed.

Lemma foldl_nanmax_start a (xs : list (option Z)) :
  foldl nanmax a xs = nanmax a (foldl nanmax None xs).
Proof.
  revert a. induction xs as [|x xs IH]; intros a; simpl.
  - by rewrite nanmax_None_r.
  - rewrite IH, (IH x). by rewrite nanmax_assoc.
Qed.

Lemma series_max_app xs ys :
  series_max (xs ++ ys) = nanmax (series_max xs) (series_max ys).
Proof.
  unfold series_max. rewrite foldl_app.
  change (foldl (fun acc x => nanmax acc (Some x)) ?a ys)
    with (foldl (fun acc x => nanmax acc (Some x)) a ys).
  generalize (foldl (fun acc x => nanmax acc (Some x)) None xs) as a.
  induction ys as [|y ys IH] using rev_ind; intros a.
  - by rewrite nanmax_None_r.
  - rewrite !foldl_app. simpl. rewrite IH. by rewrite nanmax_assoc.
Qed.

Lemma series_max_None xs : series_max xs = None <-> xs = [].
Proof.
  destruct xs as [|x xs]; [done|]. split; [|done].
  change (x :: xs) with ([x] ++ xs). rewrite series_max_app.
  change (series_max [x]) with (Some x). by destruct (series_max xs).
Qed.

Lemma series_max_Some xs m : series_max xs = Some m <-> is_max xs m.
Proof.
  revert m. induction xs as [|x xs IH] using rev_ind; intros m.
  - split; [done|]. intros [Hin _]. by apply elem_of_nil in Hin.
  - rewrite series_max_app. change (series_max [x]) with (Some x).
    unfold is_max. destruct (series_max xs) as [m'|] eqn:Hxs; simpl.
    + destruct (proj1 (IH m') eq_refl) as [Hin Hub]. split.
      * intros [= <-]. split.
        -- destruct (Z.max_spec m' x) as [[_ ->]|[_ ->]]; set_solver.
        -- intros y [Hy|Hy%list_elem_of_singleton]%elem_of_app;
             [apply Hub in Hy|]; lia.
      * intros [Hm Hall]. f_equal.
        assert (x <= m) by (apply Hall; set_solver).
        assert (m' <= m) by (apply Hall; set_solver).
        apply elem_of_app in Hm as [Hm%Hub|Hm%list_elem_of_singleton]; lia.
    + apply series_max_None in Hxs as ->. simpl. split.
      * intros [= <-]. split; [set_solver|].
        intros y Hy%list_elem_of_singleton. lia.
      * intros [Hm%list_elem_of_singleton _]. by subst.
Qed.

Lemma column_rows col (ddf : list Part) :
  concat (map (column col) ddf) =
    map (fun r : Z * Z => if (col =? 0)%nat then r.1 else r.2) (all_rows ddf).
Proof.
  unfold all_rows. induction ddf as [|p ddf IH]; simpl; [done|].
  rewrite map_app. by rewrite IH.
Qed.

Lemma all_rows_elem (ddf : list Part) r :
  r ∈ all_rows ddf <-> exists p, p ∈ ddf /\ r ∈ rows p.
Proof.
  unfold all_rows. induction ddf as [|q ddf IH]; simpl.
  - split; [by intros ?%elem_of_nil | by intros (p & ?%elem_of_nil & _)].
  - rewrite elem_of_app, IH. split.
    + intros [Hr|(p & Hp & Hr)].
      * exists q. split; [apply list_elem_of_here | done].
      * exists p. split; [by apply list_elem_of_further | done].
    + intros (p & [->|Hp]%elem_of_cons & Hr); [by left|]. right. eauto.
Qed.

Lemma int64_exact z : - 2 ^ 63 <= z < 2 ^ 63 -> Np.int64 z = z.
Proof. intros Hz. unfold Np.int64. rewrite Z.mod_small; lia. Qed.

Lemma float64_exact z : - 2 ^ 53 <= z <= 2 ^ 53 -> Np.float64 z = z.
Proof.
  intros Hz. unfold Np.float64. cbv zeta.
  destruct (Z.leb_spec (Z.log2 (Z.abs z) - 52) 0) as [|Hlog]; [done|].
  assert (Z.abs z = 2 ^ 53) as Habs.
  { destruct (decide (Z.abs z < 2 ^ 53)) as [Hlt|]; [|lia].
    destruct (decide (0 < Z.abs z)) as [Hpos|Hzero].
    - apply Z.log2_lt_pow2 in Hlt; [lia | done].
    - replace (Z.abs z) with 0 in Hlog by lia. simpl in Hlog. lia. }
  destruct (Z.abs_spec z) as [[_ Heq]|[_ Heq]]; rewrite Heq in Habs.
  - subst z. reflexivity.
  - replace z with (- 2 ^ 53) by lia. reflexivity.
Qed.

Lemma foldl_nanmax_None (l : list (option Z)) :
  foldl nanmax None l = None <-> Forall (fun m => m = None) l.
Proof.
  induction l as [|m l IH]; simpl; [by split; [constructor|]|].
  rewrite foldl_nanmax_start, Forall_cons, <- IH.
  destruct m, (foldl nanmax None l); simpl; naive_solver.
Qed.

(** Folding the maxima of the partitions gives the maximum of the column
    of the whole dataset. *)
Lemma chunks_fold col ddf :
  foldl nanmax None (map (fun p => series_max (column col p)) ddf) =
    series_max (map (fun r : Z * Z => if (col =? 0)%nat then r.1 else r.2)
                    (all_rows ddf)).
Proof.
  rewrite <- column_rows.
  induction ddf as [|p ddf IH]; simpl; [done|].
  rewrite foldl_nanmax_start, IH, series_max_app.
  by destruct (series_max (column col p)).
Qed.

Lemma chunk_not_nan col p : not_nan (series_max (column col p)) = has_rows p.
Proof.
  unfold has_rows, column. destruct (rows p) as [|r rs]; [done|].
  destruct (series_max _) eqn:Hm; [done|]. by apply series_max_None in Hm.
Qed.

Lemma chunks_not_nan col ddf :
  forallb not_nan (map (fun p => series_max (column col p)) ddf) =
    forallb has_rows ddf.
Proof.
  induction ddf as [|p ddf IH]; simpl; [done|]. by rewrite chunk_not_nan, IH.
Qed.

Lemma ids_exact_cons p ddf :
  ids_exact (p :: ddf) ->
  (forall s d, (s, d) ∈ rows p -> - 2 ^ 53 <= s < 2 ^ 53 /\ - 2 ^ 53 <= d < 2 ^ 53) /\
  ids_exact ddf.
Proof.
  intros Hx. split.
  - intros s d Hr. apply Hx, all_rows_elem. exists p.
    split; [apply list_elem_of_here | done].
  - intros s d (q & Hq & Hr)%all_rows_elem. apply Hx, all_rows_elem.
    exists q. split; [by apply list_elem_of_further | done].
Qed.

Lemma chunks_exact col ddf :
  ids_exact ddf ->
  option_map Np.float64 <$> map (fun p => series_max (column col p)) ddf =
    map (fun p => series_max (column col p)) ddf.
Proof.
  induction ddf as [|p ddf IH]; [done|].
  intros [Hp Hddf]%ids_exact_cons. simpl. rewrite <- (IH Hddf) at 2. f_equal.
  destruct (series_max (column col p)) as [m|] eqn:Hm; [|done]. simpl. f_equal.
  apply series_max_Some in Hm as [Hin _].
  apply list_elem_of_fmap in Hin as ([s d] & -> & Hr%Hp).
  apply float64_exact. destruct (col =? 0)%nat; simpl; lia.
Qed.

(** The reduction over the partitions of a dataset with exact ids is the
    maximum of the column of the whole dataset. *)
Lemma ddf_max_rows col ddf :
  ids_exact ddf ->
  ddf_max col ddf =
    match series_max (map (fun r : Z * Z => if (col =? 0)%nat then r.1 else r.2)
                          (all_rows ddf)) with
    | Some m => reduced ddf m
    | None => SNaN
    end.
Proof.
  intros Hx. unfold ddf_max, reduced. cbv zeta.
  rewrite chunks_not_nan, (chunks_exact col ddf Hx), chunks_fold.
  by destruct (forallb has_rows ddf), (series_max _).
Qed.

Lemma vertex_count_rows ddf :
  ids_exact ddf ->
  vertex_count ddf =
    match series_max (all_rows ddf).*1, series_max (all_rows ddf).*2 with
    | Some a, Some b => reduced ddf (Z.max a b + 1)
    | _, _ => SNaN
    end.
Proof.
  intros Hx. unfold vertex_count. rewrite !ddf_max_rows by done. simpl.
  change (map (fun r : Z * Z => r.1) (all_rows ddf)) with ((all_rows ddf).*1).
  change (map (fun r : Z * Z => r.2) (all_rows ddf)) with ((all_rows ddf).*2).
  destruct (series_max (all_rows ddf).*1) as [a|] eqn:Ha;
    destruct (series_max (all_rows ddf).*2) as [b|] eqn:Hb; try done.
  - apply series_max_Some in Ha as [Hain _], Hb as [Hbin _].
    apply list_elem_of_fmap in Hain as ([a1 a2] & -> & [Ha _]%Hx).
    apply list_elem_of_fmap in Hbin as ([b1 b2] & -> & [_ Hb]%Hx).
    simpl. unfold reduced, scalar_max, scalar_gt.
    destruct (forallb has_rows ddf); simpl.
    + destruct (Z.ltb_spec a1 b2); simpl; rewrite int64_exact by lia;
        f_equal; lia.
    + destruct (Z.ltb_spec a1 b2); simpl; rewrite float64_exact by lia;
        f_equal; lia.
  - apply series_max_None in Hb. apply fmap_nil_inv in Hb.
    rewrite Hb in Ha. done.
  - by destruct (reduced ddf b).
Qed.

Lemma ddf_max_nan col ddf :
  ddf_max col ddf = SNaN <-> all_rows ddf = [].
Proof.
  assert (Forall (fun m => m = None) (map (fun p => series_max (column col p)) ddf)
          <-> all_rows ddf = []) as Hnone.
  { rewrite <- foldl_nanmax_None, chunks_fold, series_max_None.
    split; [apply fmap_nil_inv | by intros ->]. }
  unfold ddf_max. cbv zeta. rewrite <- Hnone.
  destruct (forallb not_nan _).
  - rewrite <- foldl_nanmax_None. by destruct (foldl nanmax None _).
  - transitivity (foldl nanmax None
        (option_map Np.float64 <$> map (fun p => series_max (column col p)) ddf)
        = None); [by destruct (foldl nanmax None _)|].
    rewrite foldl_nanmax_None, Forall_fmap. apply Forall_proper; [|done].
    intros [m|]; simpl; split; done.
Qed.

(** The vertex count is NaN exactly for a dataset without rows. *)
Lemma vertex_count_nan ddf : vertex_count ddf = SNaN <-> all_rows ddf = [].
Proof.
  rewrite <- (ddf_max_nan 0 ddf). unfold vertex_count. cbv zeta.
  pose proof (ddf_max_nan 0 ddf) as H0. pose proof (ddf_max_nan 1 ddf) as H1.
  unfold scalar_max.
  destruct (ddf_max 0 ddf) as [a|a|] eqn:Ha, (ddf_max 1 ddf) as [b|b|] eqn:Hb;
    simpl; try (destruct (_ <? _)); simpl; try done; intuition congruence.
Qed.

End Reduction.

(** ** Stages of the round *)

Section Stages.

Lemma rank_trace_nothing_computed c ddf l :
  nothing_computed (prologue ddf ++ rank_trace c l).
Proof.
  apply Forall_app. split; [by repeat constructor|].
  induction l as [|pw l IH]; simpl; [constructor|].
  do 2 (constructor; [done|]). by destruct (liveness (worker c pw.2)).
Qed.

Lemma prologue_nothing_computed ddf : nothing_computed (prologue ddf).
Proof. by repeat constructor. Qed.

Lemma rank_answer_Ret c pw rw :
  rank_answer c pw = Ret rw <->
  liveness (worker c pw.2) = Alive /\ rw = (comm_rank (worker c pw.2), pw.2).
Proof.
  unfold rank_answer. destruct (liveness (worker c pw.2)); split;
    first [by intros [= <-] | by intros [? ->] | done | by intros [? _]].
Qed.

(** The rank queries return when every queried worker answers, and then
    they pair each worker with its own rank. *)
Lemma rank_answers_Ret c l wr :
  mapO (rank_answer c) l = Ret wr <->
  Forall (fun pw => liveness (worker c pw.2) = Alive) l /\
  wr = (fun pw : Part * string => (comm_rank (worker c pw.2), pw.2)) <$> l.
Proof.
  rewrite mapO_Ret. revert wr. induction l as [|pw l IH]; intros wr.
  - split; [inversion 1; by split | intros [_ ->]; constructor].
  - split.
    + inversion 1 as [|? rw ? wr' Hrw Hwr]; subst.
      apply rank_answer_Ret in Hrw as [Hl ->]. apply IH in Hwr as [Hall ->].
      split; [by constructor | done].
    + intros [Hall ->]. apply Forall_cons in Hall as [Hl Hall].
      constructor; [by apply rank_answer_Ret | by apply IH].
Qed.

Lemma zip_seq_lookup {X} (l : list X) k i :
  zip (seq k (length l)) l !! i = (fun p => ((k + i)%nat, p)) <$> l !! i.
Proof.
  revert k i. induction l as [|x l IH]; intros k i; [done|].
  destruct i as [|i]; simpl.
  - by rewrite Nat.add_0_r.
  - rewrite IH. by rewrite Nat.add_succ_r.
Qed.

Lemma enumerate_lookup {X} (l : list X) i :
  enumerate l !! i = (fun p => (i, p)) <$> l !! i.
Proof. apply (zip_seq_lookup l 0 i). Qed.

Lemma enumerate_length {X} (l : list X) : length (enumerate l) = length l.
Proof. unfold enumerate. rewrite length_zip, length_seq. lia. Qed.

(** Lines 87-88 return when every partition index is a key of the rank
    table, and pair the partition at index [i] with the value at [i]. *)
Lemma pairing_Ret (d : gmap nat string) (ddf : list Part) pwm :
  mapO (pair_with_rank d) (enumerate ddf) = Ret pwm ->
  length pwm = length ddf /\
  forall i pw, pwm !! i = Some pw ->
    ddf !! i = Some pw.1 /\ d !! i = Some pw.2.
Proof.
  intros HF%mapO_Ret. split.
  - apply Forall2_length in HF. by rewrite enumerate_length in HF.
  - intros i pw Hi.
    destruct (Forall2_lookup_r _ _ _ _ _ HF Hi) as ([j p] & Hj & Hpw).
    rewrite enumerate_lookup in Hj.
    destruct (ddf !! i) as [p'|] eqn:Hp; [|done]. injection Hj as <- <-.
    simpl in Hpw. destruct (d !! i) as [w|]; [|done].
    by injection Hpw as <-.
Qed.

(** Lines 87-88 raise [KeyError] at the first partition index that is not
    a key of the rank table. *)
Lemma pairing_KeyError (d : gmap nat string) (ddf : list Part) i :
  (i < length ddf)%nat -> d !! i = None ->
  exists i0, (i0 <= i)%nat /\ d !! i0 = None /\
    (forall j, (j < i0)%nat -> is_Some (d !! j)) /\
    mapO (pair_with_rank d) (enumerate ddf) = Raise (KeyError i0).
Proof.
  intros Hi Hnone.
  destruct (mapO_not_Ret (pair_with_rank d) (enumerate ddf))
    as (pre & [i0 p] & post & Hsplit & Hpre & Hstop).
  { intros pwm [Hlen Hpwm]%pairing_Ret.
    destruct (lookup_lt_is_Some_2 pwm i) as [pw Hpw]; [lia|].
    apply Hpwm in Hpw as [_ Hpw]. congruence. }
  assert (i0 = length pre) as Hi0.
  { assert (enumerate ddf !! length pre = Some (i0, p)) as Hl.
    { rewrite Hsplit. by rewrite list_lookup_middle. }
    rewrite enumerate_lookup in Hl. destruct (ddf !! length pre); [|done].
    by injection Hl. }
  assert (d !! i0 = None) as Hd.
  { specialize (Hstop (p, default EmptyString (d !! i0))). simpl in Hstop.
    by destruct (d !! i0). }
  assert (forall j, (j < i0)%nat -> is_Some (d !! j)) as Hbefore.
  { intros j Hj. rewrite Hi0 in Hj.
    destruct (lookup_lt_is_Some_2 pre j Hj) as [[j' q] Hq].
    assert (enumerate ddf !! j = Some (j', q)) as Hl.
    { rewrite Hsplit. by rewrite lookup_app_l. }
    rewrite enumerate_lookup in Hl. destruct (ddf !! j); [|done].
    injection Hl as <- <-.
    destruct (proj1 (Forall_lookup _ _) Hpre j _ Hq) as [b Hb].
    simpl in Hb. by destruct (d !! j). }
  exists i0. repeat split; try done.
  - destruct (decide (i0 <= i)%nat); [done|].
    destruct (Hbefore i) as [? ?]; [lia | congruence].
  - rewrite Hsplit, mapO_stop by done. simpl. by rewrite Hd.
Qed.

Lemma queried_take c (ddf : list Part) :
  queried c ddf = take (length ddf) (has_what c).
Proof.
  unfold queried. generalize (has_what c) as x.
  induction ddf as [|p ddf IH]; intros [|w x]; simpl; rewrite ?IH; done.
Qed.

Lemma queried_length c (ddf : list Part) :
  length (queried c ddf) = (length ddf `min` length (has_what c))%nat.
Proof. rewrite queried_take, length_take. lia. Qed.

Lemma rank_pairs_fmap c (ddf : list Part) :
  (fun pw : Part * string => (comm_rank (worker c pw.2), pw.2))
    <$> zip ddf (has_what c) =
  (fun w => (comm_rank (worker c w), w)) <$> queried c ddf.
Proof. unfold queried. rewrite <- list_fmap_compose. done. Qed.

Lemma table_lookup c (ddf : list Part) i w :
  Py.dict ((fun w => (comm_rank (worker c w), w)) <$> queried c ddf) !! i = Some w ->
  w ∈ queried c ddf /\ comm_rank (worker c w) = i.
Proof.
  intros Hd%dict_lookup_elem.
  apply list_elem_of_fmap in Hd as (w' & [= -> ->] & Hw'). done.
Qed.

Lemma table_is_Some c (ddf : list Part) w :
  w ∈ queried c ddf ->
  is_Some (Py.dict ((fun w => (comm_rank (worker c w), w)) <$> queried c ddf)
             !! comm_rank (worker c w)).
Proof.
  intros Hw. apply not_eq_None_Some. rewrite dict_lookup_None.
  intros Hnot. apply Hnot. rewrite <- list_fmap_compose.
  apply list_elem_of_fmap. by exists w.
Qed.

Lemma pairing_total (d : gmap nat string) (ddf : list Part) :
  (forall i, (i < length ddf)%nat -> is_Some (d !! i)) ->
  exists pwm, mapO (pair_with_rank d) (enumerate ddf) = Ret pwm.
Proof.
  intros Hall.
  destruct (mapO (pair_with_rank d) (enumerate ddf)) as [pwm|e|] eqn:Hm; [eauto|..].
  all: destruct (mapO_not_Ret (pair_with_rank d) (enumerate ddf))
         as (pre & [i p] & post & Hsplit & _ & Hstop); [congruence|].
  all: assert (enumerate ddf !! length pre = Some (i, p)) as Hl
         by (rewrite Hsplit; by rewrite list_lookup_middle).
  all: rewrite enumerate_lookup in Hl.
  all: destruct (ddf !! length pre) as [q|] eqn:Hq; [|done].
  all: injection Hl as <- <-; apply lookup_lt_Some in Hq.
  all: destruct (Hall _ Hq) as [w Hw].
  all: destruct (Hstop (q, w)); simpl; by rewrite Hw.
Qed.

Lemma compute_future_resolved c nv pw :
  liveness (worker c pw.2) = Alive -> resolved c (compute_future nv pw) = true.
Proof.
  intros Hl. unfold resolved, run, compute_future. simpl. rewrite Hl.
  unfold _mg_pagerank.
  destruct (rows pw.1) as [|r0 rs]; [done|].
  destruct (last (r0 :: rs)); [|done].
  by destruct (kernel_raises c pw.1 _ nv).
Qed.

(** Compute tasks go to workers that answered their rank query, so the
    barrier does not block on them. *)
Lemma dispatched_resolved c ddf nv pwm :
  Forall (fun w => liveness (worker c w) = Alive) (queried c ddf) ->
  mapO (pair_with_rank
          (Py.dict ((fun w => (comm_rank (worker c w), w)) <$> queried c ddf)))
       (enumerate ddf) = Ret pwm ->
  forallb (resolved c) (compute_future nv <$> pwm) = true.
Proof.
  intros Halive [_ Hpwm]%pairing_Ret. apply forallb_forall.
  intros f (pw & -> & Hpw)%list_elem_of_In%list_elem_of_fmap.
  apply compute_future_resolved.
  apply list_elem_of_lookup in Hpw as [i Hi].
  destruct (Hpwm i pw Hi) as [_ [Hq _]%table_lookup].
  by apply (proj1 (Forall_forall _ _) Halive).
Qed.

(** Every outcome of the round: it returns after all its stages, or it
    stops in the locality loop, in a rank query or in the pairing. *)
Lemma get_mg_info_outcome c ddf o tr :
  _get_mg_info c ddf [] = (o, tr) ->
  (exists pwm,
     Forall (fun w => liveness (worker c w) = Alive) (queried c ddf) /\
     mapO (pair_with_rank
             (Py.dict ((fun w => (comm_rank (worker c w), w)) <$> queried c ddf)))
          (enumerate ddf) = Ret pwm /\
     o = Ret (compute_future (vertex_count ddf) <$> pwm) /\
     tr = prologue ddf ++ rank_trace c (zip ddf (has_what c)) ++
          [EvReduce 0; EvReduce 1] ++
          (EvSubmit <$> (compute_future (vertex_count ddf) <$> pwm)) ++
          [EvWait (compute_future (vertex_count ddf) <$> pwm)]) \/
  ((forall futs, o <> Ret futs) /\
   (tr = prologue ddf \/ tr = prologue ddf ++ rank_trace c (zip ddf (has_what c)))).
Proof.
  rewrite get_mg_info_run.
  destruct (locality_map c ddf) as [wm| |];
    [|intros [= <- <-]; right; split; [done | by left]..].
  cbv zeta.
  destruct (mapO (rank_answer c) (zip ddf (has_what c))) as [wr| |] eqn:Hwr;
    [|intros [= <- <-]; right; split; [done | by right]..].
  apply rank_answers_Ret in Hwr as [Halive ->]. rewrite rank_pairs_fmap.
  assert (Forall (fun w => liveness (worker c w) = Alive) (queried c ddf)) as Hq.
  { unfold queried. by apply Forall_fmap. }
  destruct (mapO _ (enumerate ddf)) as [pwm| |] eqn:Hpwm;
    [|intros [= <- <-]; right; split; [done | by right]..].
  rewrite (dispatched_resolved c ddf _ pwm Hq Hpwm).
  intros [= <- <-]. left. by exists pwm.
Qed.

End Stages.

(** ** Claims on the round *)

Section RoundClaims.

Lemma filter_nothing_computed tr :
  nothing_computed tr -> List.filter is_dispatch tr = [].
Proof.
  induction 1 as [|e tr [He _] _ IH]; simpl; [done|]. by rewrite He.
Qed.

Lemma filter_dispatched nv (l : list (Part * string)) :
  List.filter is_dispatch (EvSubmit <$> (compute_future nv <$> l)) =
    EvSubmit <$> (compute_future nv <$> l).
Proof. induction l as [|pw l IH]; simpl in *; [done|]. by f_equal. Qed.

(** A round that returns went through every stage. *)
Lemma get_mg_info_Ret c ddf futs tr :
  _get_mg_info c ddf [] = (Ret futs, tr) ->
  exists wm pwm,
    locality_map c ddf = Ret wm /\
    Forall (fun w => liveness (worker c w) = Alive) (queried c ddf) /\
    mapO (pair_with_rank
            (Py.dict ((fun w => (comm_rank (worker c w), w)) <$> queried c ddf)))
         (enumerate ddf) = Ret pwm /\
    futs = compute_future (vertex_count ddf) <$> pwm /\
    forallb (resolved c) futs = true /\
    tr = prologue ddf ++ rank_trace c (zip ddf (has_what c)) ++
         [EvReduce 0; EvReduce 1] ++ (EvSubmit <$> futs) ++ [EvWait futs].
Proof.
  rewrite get_mg_info_run.
  destruct (locality_map c ddf) as [wm| |]; [|done..]. cbv zeta.
  destruct (mapO (rank_answer c) (zip ddf (has_what c))) as [wr| |] eqn:Hwr;
    [|done..].
  apply rank_answers_Ret in Hwr as [Halive ->]. rewrite rank_pairs_fmap.
  destruct (mapO _ (enumerate ddf)) as [pwm| |] eqn:Hpwm; [|done..].
  destruct (forallb _ _) eqn:Hres; [|done].
  intros [= <- <-]. exists wm, pwm. repeat split; try done.
  unfold queried. by apply Forall_fmap.
Qed.

(** C1, as the code has it: in a round that returns, the compute tasks
    submitted are one per partition, in partition order; the task of the
    partition at index [i] carries that partition and the vertex count,
    and is pinned to the last of the queried registry workers whose
    self-reported rank is [i]. *)
Theorem dispatch_pins_rank_worker c ddf futs tr :
  _get_mg_info c ddf [] = (Ret futs, tr) ->
  List.filter is_dispatch tr = EvSubmit <$> futs /\
  length futs = length ddf /\
  forall i f, futs !! i = Some f ->
    exists p j,
      ddf !! i = Some p /\
      task f = MgPagerank p (vertex_count ddf) /\
      queried c ddf !! j = Some (pin f) /\
      liveness (worker c (pin f)) = Alive /\
      comm_rank (worker c (pin f)) = i /\
      forall j' w', (j < j')%nat -> queried c ddf !! j' = Some w' ->
        comm_rank (worker c w') <> i.
Proof.
  intros (wm & pwm & _ & Halive & Hpwm & -> & _ & ->)%get_mg_info_Ret.
  apply pairing_Ret in Hpwm as [Hlen Hpwm]. repeat split.
  - rewrite app_assoc, List.filter_app.
    rewrite filter_nothing_computed by apply rank_trace_nothing_computed.
    change ([EvReduce 0; EvReduce 1] ++ ?l) with (EvReduce 0 :: EvReduce 1 :: l).
    cbn [List.filter is_dispatch app].
    by rewrite List.filter_app, filter_dispatched, app_nil_r.
  - by rewrite length_fmap.
  - intros i f Hf. rewrite list_lookup_fmap in Hf.
    destruct (pwm !! i) as [[p w]|] eqn:Hi; [|done]. injection Hf as <-.
    destruct (Hpwm i _ Hi) as [Hp Hw]. simpl in *.
    apply dict_lookup_Some in Hw as (l1 & l2 & Hsplit & Hlast).
    apply fmap_app_inv in Hsplit as (q1 & q2' & -> & Hq2 & Hq).
    symmetry in Hq2.
    apply fmap_cons_inv in Hq2 as (w' & q2 & [= Hrank <-] & -> & ->).
    exists p, (length q1). repeat split; try done.
    + rewrite Hq. by rewrite list_lookup_middle.
    + rewrite Hq in Halive. apply Forall_app in Halive as [_ Halive].
      by apply Forall_cons in Halive as [? _].
    + intros j' w' Hj Hw' Heq. apply Hlast.
      rewrite Hq in Hw'. rewrite lookup_app_r in Hw' by lia.
      destruct (j' - length q1)%nat as [|k] eqn:Hk; [lia|]. simpl in Hw'.
      rewrite <- list_fmap_compose. apply list_elem_of_fmap.
      exists w'. split; [done|]. by eapply list_elem_of_lookup_2.
Qed.

Lemma dispatch_pins_rank_worker_witness :
  exists futs tr,
    _get_mg_info swapped_cluster [partA; partB] [] = (Ret futs, tr) /\
    List.filter is_dispatch tr = EvSubmit <$> futs /\
    length futs = 2%nat.
Proof.
  eexists _, _. split; [vm_compute; reflexivity|].
  pose proof (dispatch_pins_rank_worker swapped_cluster [partA; partB] _ _
                ltac:(vm_compute; reflexivity)) as (Hf & Hl & _).
  split; [exact Hf | exact Hl].
Defined.

Lemma swapped_round :
  exists tr,
    _get_mg_info swapped_cluster [partA; partB] [] =
      (Ret [ {| task := MgPagerank partA (SInt 100); pin := W1 |};
             {| task := MgPagerank partB (SInt 100); pin := W2 |} ], tr) /\
    EvSubmit {| task := MgPagerank partA (SInt 100); pin := W1 |} ∈ tr.
Proof.
  eexists. split; [vm_compute; reflexivity|].
  do 9 apply list_elem_of_further. apply list_elem_of_here.
Qed.

(** C1, counterexample: partition A is held by the second worker and its
    compute task is pinned to the first, whose rank is A's index. *)
Lemma dispatch_ignores_locality_map :
  ~ pinned_to_holders swapped_cluster [partA; partB].
Proof.
  intros Hpin. destruct swapped_round as (tr & Hround & Hin).
  destruct (Hpin _ _ _ _ partA (SInt 100) Hround
              ltac:(vm_compute; reflexivity) Hin eq_refl) as (wa & Hwa & Hmem).
  vm_compute in Hwa. injection Hwa as <-.
  apply elem_of_cons in Hmem as [Heq|Hmem]; [vm_compute in Heq; discriminate Heq|].
  apply elem_of_cons in Hmem as [Heq|Hmem]; [vm_compute in Heq; discriminate Heq|].
  by apply elem_of_nil in Hmem.
Qed.






(** C9: [get_rank] returns the rank of the process it runs on whatever
    its argument, and the answers to the rank queries of a round do not
    change when the partitions passed to them do. *)
Theorem get_rank_ignores_argument :
  (forall proc l1 l2, get_rank proc l1 = get_rank proc l2) /\
  (forall c (g : Part -> Part) ddf tr,
     (mapM (rank_query c) (zip (g <$> ddf) (has_what c)) tr).1 =
     (mapM (rank_query c) (zip ddf (has_what c)) tr).1).
Proof.
  split; [done|]. intros c g ddf tr. rewrite !mapM_rank_query. simpl.
  generalize (has_what c) as x.
  induction ddf as [|p ddf IH]; intros [|w x]; simpl; try done.
  unfold rank_answer at 1 3. simpl. by rewrite IH.
Qed.

End RoundClaims.

Section FailureClaims.






Lemma wait_run c fs tr :
  wait c fs tr =
    (if forallb (resolved c) fs then Ret tt else Hang, tr ++ [EvWait fs]).
Proof.
  unfold wait, bind, emit, ret, lift. simpl.
  by destruct (forallb (resolved c) fs).
Qed.

Lemma forallb_resolved c fs :
  forallb (resolved c) fs = true <-> forall f, f ∈ fs -> run c f <> Hang.
Proof.
  rewrite forallb_forall. unfold resolved. split.
  - intros Hall f Hf%list_elem_of_In Hrun. apply Hall in Hf.
    by rewrite Hrun in Hf.
  - intros Hall f Hf%list_elem_of_In. apply Hall in Hf.
    by destruct (run c f).
Qed.

Lemma forallb_unresolved c fs :
  forallb (resolved c) fs = false -> exists f, f ∈ fs /\ run c f = Hang.
Proof.
  induction fs as [|f fs IH]; simpl; [done|].
  intros [Hf|Hfs]%andb_false_iff.
  - exists f. split; [apply list_elem_of_here|].
    unfold resolved in Hf. by destruct (run c f).
  - destruct (IH Hfs) as (f' & Hin & Hrun). exists f'.
    split; [by apply list_elem_of_further | done].
Qed.

Lemma forallb_print_resolved listening fs :
  forallb (print_resolved listening) fs = true <->
  forall f, f ∈ fs -> run_print listening f <> Hang.
Proof.
  rewrite forallb_forall. unfold print_resolved. split.
  - intros Hall f Hf%list_elem_of_In Hrun. apply Hall in Hf.
    by rewrite Hrun in Hf.
  - intros Hall f Hf%list_elem_of_In. apply Hall in Hf.
    by destruct (run_print listening f).
Qed.

(** C4, as the code has it: [print_data] submits its print tasks, then
    waits: it returns the handles exactly when every one of them has
    ended, by a result or by an exception, and blocks at the barrier
    otherwise.  A failed handle raises nothing: an error of
    [print_data] is an error of its locality loop, and what
    [_get_mg_info] does is the same whichever compute tasks raise; its
    barrier is its last call, made on the handles it returns. *)
Theorem barrier_waits_without_raising listening c ddf :
  (forall tr0 wm,
     locality_map c ddf = Ret wm ->
     let futs := (fun wp : WorkerAddress * Part =>
                    {| printed_part := wp.2; print_pin := wp.1 |}) <$> wm in
     let tr := tr0 ++ [PvMaterialize ddf; PvWhoHas] ++ (PvSubmit <$> futs)
                   ++ [PvWait futs] in
     ((forall f, f ∈ futs -> run_print listening f <> Hang) <->
        print_data listening c ddf tr0 = (Ret futs, tr)) /\
     ((exists f, f ∈ futs /\ run_print listening f = Hang) <->
        print_data listening c ddf tr0 = (Hang, tr))) /\
  (forall tr0 e tr,
     print_data listening c ddf tr0 = (Raise e, tr) ->
     locality_map c ddf = Raise e) /\
  (forall raises,
     _get_mg_info {| who_has := who_has c; has_what := has_what c;
                     worker := worker c; kernel_raises := raises |} ddf []
       = _get_mg_info c ddf []) /\
  (forall futs tr,
     _get_mg_info c ddf [] = (Ret futs, tr) -> last tr = Some (EvWait futs)).
Proof.
  split; [|split; [|split]].
  - intros tr0 wm Hloc futs tr. unfold print_data. rewrite Hloc. cbv zeta.
    fold futs. rewrite <- !app_assoc. fold tr.
    destruct (forallb (print_resolved listening) futs) eqn:Hres.
    + pose proof (proj1 (forallb_print_resolved listening futs) Hres) as Hall.
      split; [by split|].
      split; [|done]. intros (f & Hf & Hrun). by destruct (Hall f Hf).
    + split.
      * split; [|done]. intros Hall.
        apply (proj2 (forallb_print_resolved listening futs)) in Hall. congruence.
      * split; [done|]. intros _. clear tr.
        induction futs as [|f futs IH]; [done|]. simpl in Hres.
        apply andb_false_iff in Hres as [Hf|Hfs].
        -- exists f. split; [apply list_elem_of_here|].
           unfold print_resolved in Hf. by destruct (run_print listening f).
        -- destruct (IH Hfs) as (f' & Hin & Hrun). exists f'.
           split; [by apply list_elem_of_further | done].
  - intros tr0 e tr. unfold print_data.
    destruct (locality_map c ddf) as [wm| |]; try done.
    + cbv zeta. by destruct (forallb _ _).
    + by intros [= <- _].
  - intros raises. rewrite !get_mg_info_run. unfold locality_map. simpl.
    destruct (mapO (locality_entry (key_to_part ddf)) (who_has c)); try done.
    change (has_what {| who_has := who_has c; has_what := has_what c;
                        worker := worker c; kernel_raises := raises |})
      with (has_what c).
    assert (forall l, mapO (rank_answer {| who_has := who_has c; has_what := has_what c;
                        worker := worker c; kernel_raises := raises |}) l
                      = mapO (rank_answer c) l) as ->.
    { intros l. induction l as [|pw l IH]; simpl; [done|]. by rewrite IH. }
    assert (forall l, rank_trace {| who_has := who_has c; has_what := has_what c;
                        worker := worker c; kernel_raises := raises |} l
                      = rank_trace c l) as ->.
    { intros l. induction l as [|pw l IH]; simpl; [done|]. by rewrite IH. }
    destruct (mapO (rank_answer c) (zip ddf (has_what c))) as [wr| |] eqn:Hwr;
      try done.
    destruct (mapO (pair_with_rank (Py.dict wr)) (enumerate ddf)) as [pwm| |] eqn:Hp;
      try done.
    apply rank_answers_Ret in Hwr as [Halive ->]. rewrite rank_pairs_fmap in Hp.
    assert (Forall (fun w => liveness (worker c w) = Alive) (queried c ddf)) as Hq.
    { unfold queried. by apply Forall_fmap. }
    rewrite (dispatched_resolved c ddf _ pwm Hq Hp).
    by rewrite (dispatched_resolved
                  {| who_has := who_has c; has_what := has_what c;
                     worker := worker c; kernel_raises := raises |} ddf _ pwm Hq Hp).
  - intros futs tr (wm & pwm & _ & _ & _ & _ & _ & ->)%get_mg_info_Ret.
    by rewrite !app_assoc, last_snoc.
Qed.

(** C4, counterexample: the task of partition B raises, and the round
    returns its handles with no error. *)
Lemma barrier_hides_failed_task :
  exists futs tr f e,
    _get_mg_info failing_cluster [partA; partB] [] = (Ret futs, tr) /\
    f ∈ futs /\ run failing_cluster f = Raise e.
Proof.
  eexists _, _, {| task := MgPagerank partB (SInt 100); pin := W2 |}, _.
  split; [vm_compute; reflexivity|].
  split; [apply list_elem_of_further, list_elem_of_here | vm_compute; reflexivity].
Qed.

End FailureClaims.

Section RankClaims.

Lemma rank_trace_stop c pre pw post :
  Forall (fun pw => liveness (worker c pw.2) = Alive) pre ->
  liveness (worker c pw.2) <> Alive ->
  rank_trace c (pre ++ pw :: post) = rank_calls (pre ++ [pw]).
Proof.
  intros Hpre Hw. unfold rank_calls.
  induction Hpre as [|x pre Hx _ IH]; simpl.
  - by destruct (liveness (worker c pw.2)).
  - rewrite Hx. by rewrite IH.
Qed.

(** C5, as the code has it: each rank query waits for its result with no
    timeout.  At the first queried worker that is not alive the round
    stops, in the wait for that worker's answer and with no reduction and
    no compute task requested: it blocks for ever when the worker never
    answers, and raises the task's exception when the rank-query task
    raises. *)
Theorem rank_query_blocks_without_timeout c ddf wm pre p w post :
  locality_map c ddf = Ret wm ->
  zip ddf (has_what c) = pre ++ (p, w) :: post ->
  Forall (fun pw => liveness (worker c pw.2) = Alive) pre ->
  liveness (worker c w) <> Alive ->
  nothing_computed (prologue ddf ++ rank_calls (pre ++ [(p, w)])) /\
  last (prologue ddf ++ rank_calls (pre ++ [(p, w)]))
    = Some (EvResult (rank_future (p, w))) /\
  (liveness (worker c w) = Unreachable ->
     _get_mg_info c ddf [] = (Hang, prologue ddf ++ rank_calls (pre ++ [(p, w)]))) /\
  (liveness (worker c w) = Failing ->
     _get_mg_info c ddf []
       = (Raise (TaskError w), prologue ddf ++ rank_calls (pre ++ [(p, w)]))).
Proof.
  intros Hloc Hzip Hpre Hw.
  pose proof (rank_trace_stop c pre (p, w) post Hpre Hw) as Htrace.
  assert (mapO (rank_answer c) (zip ddf (has_what c)) =
          match rank_answer c (p, w) with
          | Ret _ => Hang
          | Raise e => Raise e
          | Hang => Hang
          end) as Hans.
  { rewrite Hzip. apply mapO_stop.
    - eapply Forall_impl; [exact Hpre|]. intros pw Hpw.
      eexists. by apply rank_answer_Ret.
    - intros rw [Hl _]%rank_answer_Ret. done. }
  split; [|split; [|split]].
  - rewrite <- Htrace. apply rank_trace_nothing_computed.
  - unfold rank_calls. rewrite bind_app.
    change ([(p, w)] ≫= _)
      with ([EvSubmit (rank_future (p, w))] ++ [EvResult (rank_future (p, w))]).
    rewrite !app_assoc. apply last_snoc.
  - intros Hl. rewrite get_mg_info_run, Hloc. cbv zeta.
    rewrite Hans, Hzip, Htrace. unfold rank_answer. simpl. by rewrite Hl.
  - intros Hl. rewrite get_mg_info_run, Hloc. cbv zeta.
    rewrite Hans, Hzip, Htrace. unfold rank_answer. simpl. by rewrite Hl.
Qed.

Lemma rank_query_blocks_without_timeout_witness :
  _get_mg_info silent_cluster [partA; partB] []
    = (Hang, prologue [partA; partB] ++ rank_calls [(partA, W1); (partB, W2)]).
Proof.
  destruct (rank_query_blocks_without_timeout silent_cluster [partA; partB]
              [(("10.0.0.1", 8786), partA); (("10.0.0.2", 8786), partB)]
              [(partA, W1)] partB W2 []) as (_ & _ & Hhang & _).
  - vm_compute; reflexivity.
  - reflexivity.
  - constructor; [vm_compute; reflexivity | constructor].
  - vm_compute. discriminate.
  - apply Hhang. vm_compute. reflexivity.
Defined.

(** A rank-query task that raises ends the round with its exception. *)
Example crashing_round :
  (_get_mg_info crashing_cluster [partA; partB] []).1 = Raise (TaskError W1).
Proof. vm_compute; reflexivity. Qed.

(** C5, counterexample: a worker never answers its rank query, and the
    round does not fail: it blocks. *)
Lemma rank_query_never_times_out :
  liveness (worker silent_cluster W2) = Unreachable /\
  (_get_mg_info silent_cluster [partA; partB] []).1 = Hang /\
  forall e, (_get_mg_info silent_cluster [partA; partB] []).1 <> Raise e.
Proof.
  split; [vm_compute; reflexivity|].
  split; [vm_compute; reflexivity | intros e; vm_compute; discriminate].
Qed.

Lemma pigeonhole (rs : list nat) :
  NoDup rs -> Forall (fun r => (r < length rs)%nat) rs ->
  forall r, (r < length rs)%nat -> r ∈ rs.
Proof.
  intros Hnd Hlt r Hr.
  assert (rs ⊆+ seq 0 (length rs)) as Hsub.
  { apply NoDup_submseteq; [done|]. intros x Hx. apply elem_of_seq.
    apply (proj1 (Forall_forall _ _) Hlt) in Hx. lia. }
  apply submseteq_length_Permutation in Hsub; [|by rewrite length_seq].
  rewrite Hsub. apply elem_of_seq. lia.
Qed.

(** C6, as the code has it: the table binds a rank to the last of the
    queried workers that reported it, and to nothing else; when the ranks
    reported by the [K] queried workers are pairwise distinct and all
    below [K], it is a bijection between those workers and the ranks
    below [K], every worker standing under its own rank. *)
Theorem rank_table_bijection c ddf tr worker_ranks :
  (mapM (rank_query c) (zip ddf (has_what c)) tr).1 = Ret worker_ranks ->
  (forall r w,
     Py.dict worker_ranks !! r = Some w <->
     exists j, queried c ddf !! j = Some w /\ comm_rank (worker c w) = r /\
       forall j' w', (j < j')%nat -> queried c ddf !! j' = Some w' ->
         comm_rank (worker c w') <> r) /\
  (NoDup ((fun w => comm_rank (worker c w)) <$> queried c ddf) ->
   Forall (fun w => (comm_rank (worker c w) < length (queried c ddf))%nat)
          (queried c ddf) ->
   rank_bijection (queried c ddf) (Py.dict worker_ranks) /\
   forall w, w ∈ queried c ddf ->
     Py.dict worker_ranks !! comm_rank (worker c w) = Some w).
Proof.
  rewrite mapM_rank_query. simpl.
  intros [_ ->]%rank_answers_Ret. rewrite rank_pairs_fmap.
  set (ws := queried c ddf) in *.
  set (l := (fun w => (comm_rank (worker c w), w)) <$> ws).
  assert (l.*1 = (fun w => comm_rank (worker c w)) <$> ws) as Hkeys.
  { unfold l. by rewrite <- list_fmap_compose. }
  split.
  - intros r w. rewrite dict_lookup_Some. split.
    + intros (l1 & l2 & Hsplit & Hlast).
      apply fmap_app_inv in Hsplit as (q1 & q2' & -> & Hq2 & Hq).
      symmetry in Hq2.
      apply fmap_cons_inv in Hq2 as (w' & q2 & [= Hrank <-] & -> & ->).
      exists (length q1). rewrite Hq. split; [by rewrite list_lookup_middle|].
      split; [done|]. intros j' w' Hj Hw' Heq. apply Hlast.
      rewrite lookup_app_r in Hw' by lia.
      destruct (j' - length q1)%nat as [|k] eqn:Hk; [lia|]. simpl in Hw'.
      rewrite <- list_fmap_compose. apply list_elem_of_fmap.
      exists w'. split; [by simpl|].
      by eapply list_elem_of_lookup_2.
    + intros (j & Hj & Hrank & Hlast).
      exists ((fun w => (comm_rank (worker c w), w)) <$> take j ws),
             ((fun w => (comm_rank (worker c w), w)) <$> drop (S j) ws).
      split.
      * unfold l. rewrite <- (take_drop_middle ws j w Hj) at 1.
        rewrite fmap_app, fmap_cons. by rewrite Hrank.
      * rewrite <- list_fmap_compose.
        intros (w' & Hr & Hw')%list_elem_of_fmap. simpl in Hr.
        apply list_elem_of_lookup in Hw' as [k Hk]. rewrite lookup_drop in Hk.
        apply (Hlast (S j + k)%nat w'); [lia | done | done].
  - intros Hnd Hlt.
    assert (forall w, w ∈ ws -> Py.dict l !! comm_rank (worker c w) = Some w) as Hin.
    { intros w Hw. apply dict_lookup_NoDup; [by rewrite Hkeys|].
      apply list_elem_of_fmap. by exists w. }
    assert (forall r w, Py.dict l !! r = Some w ->
              w ∈ ws /\ r = comm_rank (worker c w)) as Hout.
    { intros r w Hd%dict_lookup_elem.
      apply list_elem_of_fmap in Hd as (w' & [= -> ->] & Hw'). done. }
    split; [|done]. unfold rank_bijection. split; [|split; [|split]].
    + intros r w [Hw ->]%Hout. split; [|done].
      by apply (proj1 (Forall_forall _ _) Hlt).
    + intros r Hr.
      assert (r ∈ (fun w => comm_rank (worker c w)) <$> ws) as Hmem.
      { apply pigeonhole; rewrite ?length_fmap; [done| |done].
        by apply Forall_fmap. }
      apply list_elem_of_fmap in Hmem as (w & -> & Hw). rewrite Hin; eauto.
    + intros w Hw. eauto.
    + intros r1 r2 w [_ ->]%Hout [_ ->]%Hout. done.
Qed.

Lemma rank_table_bijection_witness :
  Py.dict [(0%nat, W1); (1%nat, W2)] !! 0%nat = Some W1 /\
  rank_bijection (queried swapped_cluster [partA; partB])
                 (Py.dict [(0%nat, W1); (1%nat, W2)]).
Proof.
  destruct (rank_table_bijection swapped_cluster [partA; partB] []
              [(0%nat, W1); (1%nat, W2)]) as (_ & Hbij).
  - vm_compute; reflexivity.
  - destruct Hbij as [Hb Hown].
    + vm_compute. repeat constructor; set_solver.
    + vm_compute. repeat constructor.
    + split; [|exact Hb]. apply (Hown W1). apply list_elem_of_here.
Defined.

(** C6, counterexample: with three MPI processes and two partitions the
    two queried workers report ranks 2 and 0, and no worker has rank 1. *)
Lemma rank_table_not_bijection :
  exists worker_ranks,
    (mapM (rank_query three_worker_cluster)
          (zip [partA; partB] (has_what three_worker_cluster)) []).1
      = Ret worker_ranks /\
    length (queried three_worker_cluster [partA; partB]) = 2%nat /\
    ~ rank_bijection (queried three_worker_cluster [partA; partB])
                     (Py.dict worker_ranks).
Proof.
  eexists. split; [vm_compute; reflexivity|]. split; [reflexivity|].
  intros (_ & Hsurj & _). destruct (Hsurj 1%nat) as [w Hw].
  - vm_compute. lia.
  - vm_compute in Hw. discriminate Hw.
Qed.

(** C10: when the rank queries have returned and some partition index is
    not a key of the rank table (as is the case when the registry has
    fewer workers than there are partitions), the round raises
    [KeyError] at the first such index, before any reduction or compute
    task is requested. *)
Theorem missing_rank_raises_KeyError c ddf wm tr0 worker_ranks :
  locality_map c ddf = Ret wm ->
  (mapM (rank_query c) (zip ddf (has_what c)) tr0).1 = Ret worker_ranks ->
  (exists i, (i < length ddf)%nat /\ Py.dict worker_ranks !! i = None) \/
  (length (has_what c) < length ddf)%nat ->
  exists i0 tr,
    (i0 < length ddf)%nat /\ Py.dict worker_ranks !! i0 = None /\
    (forall j, (j < i0)%nat -> is_Some (Py.dict worker_ranks !! j)) /\
    _get_mg_info c ddf [] = (Raise (KeyError i0), tr) /\
    nothing_computed tr.
Proof.
  intros Hloc Hwr Hmiss. rewrite mapM_rank_query in Hwr. simpl in Hwr.
  assert (exists i, (i < length ddf)%nat /\ Py.dict worker_ranks !! i = None)
    as (i & Hi & Hnone).
  { destruct Hmiss as [?|Hfew]; [done|].
    destruct (decide (Forall (fun i => is_Some (Py.dict worker_ranks !! i))
                             (seq 0 (length ddf)))) as [Hall|Hnot].
    - exfalso.
      assert (seq 0 (length ddf) ⊆+ worker_ranks.*1) as Hsub.
      { apply NoDup_submseteq; [apply NoDup_seq|]. intros x Hx.
        apply (proj1 (Forall_forall _ _) Hall) in Hx as [w Hw].
        apply dict_lookup_elem in Hw. apply list_elem_of_fmap.
        by exists (x, w). }
      apply submseteq_length in Hsub.
      rewrite length_seq, length_fmap in Hsub.
      apply rank_answers_Ret in Hwr as [_ ->].
      rewrite length_fmap, length_zip in Hsub. lia.
    - apply not_Forall_Exists in Hnot; [|apply _].
      apply Exists_exists in Hnot as (i & Hi%elem_of_seq & Hnone).
      exists i. split; [lia|]. simpl in Hnone.
      by destruct (Py.dict worker_ranks !! i) as [w|]; [destruct Hnone|]. }
  destruct (pairing_KeyError (Py.dict worker_ranks) ddf i Hi Hnone)
    as (i0 & Hle & Hnone0 & Hbefore & Hraise).
  exists i0. eexists. split; [lia|]. split; [done|]. split; [done|].
  rewrite get_mg_info_run, Hloc. cbv zeta. rewrite Hwr, Hraise.
  split; [done | apply rank_trace_nothing_computed].
Qed.

Lemma missing_rank_raises_KeyError_witness :
  exists i0 tr,
    (i0 < 2)%nat /\ Py.dict [(0%nat, W1)] !! i0 = None /\
    (forall j, (j < i0)%nat -> is_Some (Py.dict [(0%nat, W1)] !! j)) /\
    _get_mg_info one_worker_cluster [partA; partB] [] = (Raise (KeyError i0), tr) /\
    nothing_computed tr.
Proof.
  apply (missing_rank_raises_KeyError one_worker_cluster [partA; partB]
           [(("10.0.0.1", 8786), partA); (("10.0.0.1", 8786), partB)]
           [] [(0%nat, W1)]).
  - vm_compute; reflexivity.
  - vm_compute; reflexivity.
  - right. simpl. lia.
Defined.

Example one_worker_round :
  (_get_mg_info one_worker_cluster [partA; partB] []).1 = Raise (KeyError 1).
Proof. vm_compute; reflexivity. Qed.

End RankClaims.

(** ** Further properties of the address parser *)

Section ParserExtras.

#[local] Arguments String.append : simpl nomatch.

(** X1: only the last scheme separator counts: whatever stands before it
    has no influence on the outcome, be it a pair or an error. *)
Theorem parse_host_port_last_scheme pre rest :
  ~ occurs "://" rest ->
  parse_host_port (pre +:+ "://" +:+ rest) = parse_host_port rest.
Proof.
  intros Hno.
  assert (Py.contains "://" rest = false) as Hc.
  { destruct (Py.contains "://" rest) eqn:Hc; [|done].
    by apply contains_spec in Hc. }
  unfold parse_host_port, Py.rsplit1.
  assert (Py.contains "://" (pre +:+ "://" +:+ rest) = true) as ->.
  { apply contains_spec. by exists pre, rest. }
  rewrite rpartition_scheme by done. by rewrite Hc.
Qed.

Lemma parse_host_port_last_scheme_witness :
  parse_host_port "inproc://tcp://10.0.0.5:8786" = parse_host_port "10.0.0.5:8786".
Proof.
  apply (parse_host_port_last_scheme "inproc://tcp" "10.0.0.5:8786").
  intros Ho%contains_spec. vm_compute in Ho. discriminate Ho.
Defined.

Lemma lstrip_count c s :
  Py.int_space c = false -> count_char c (Py.lstrip s) = count_char c s.
Proof.
  intros Hc. induction s as [|a s IH]; simpl; [done|].
  destruct (Py.int_space a) eqn:Ha; [|done].
  rewrite IH. destruct (Ascii.eqb_spec a c) as [->|]; [congruence | done].
Qed.

Lemma rstrip_count c s :
  Py.int_space c = false -> count_char c (Py.rstrip s) = count_char c s.
Proof.
  intros Hc. induction s as [|a s IH]; simpl; [done|].
  destruct (Py.rstrip s) as [|b r] eqn:Hr.
  - simpl in IH. destruct (Py.int_space a) eqn:Ha; simpl.
    + destruct (Ascii.eqb_spec a c) as [->|]; [congruence | done].
    + by rewrite <- IH.
  - cbn [count_char]. by rewrite <- IH.
Qed.

Lemma digits_no_slash acc b s v :
  Py.digits acc b s = Some v -> count_char "/" s = O.
Proof.
  revert acc b. induction s as [|c s IH]; intros acc b; [done|].
  cbn [Py.digits count_char].
  destruct (Ascii.eqb_spec c "/") as [->|_]; [by destruct b|].
  destruct (Py.isdigit c); [apply IH|].
  destruct (Ascii.eqb c "_" && b); [apply IH | done].
Qed.

(** A string that [int] accepts holds no slash. *)
Lemma int_no_slash s v : Py.int s = Some v -> count_char "/" s = O.
Proof.
  unfold Py.int, Py.strip. intros Hint.
  rewrite <- (lstrip_count "/" s), <- (rstrip_count "/" (Py.lstrip s)) by done.
  destruct (Py.rstrip (Py.lstrip s)) as [|c t]; [done|].
  assert ((exists v', Py.digits 0 false t = Some v') /\ Ascii.eqb c "/" = false \/
          (exists v', Py.digits 0 false (String c t) = Some v')) as Hcase.
  { destruct c as [[] [] [] [] [] [] [] []];
      first [ right; eexists; exact Hint
            | left; split; [|reflexivity];
              destruct (Py.digits 0 false t) as [v'|]; [by eexists | discriminate Hint] ]. }
  destruct Hcase as [[[v' Hv'] Hc]|[v' Hv']].
  - cbn [count_char]. rewrite Hc. by eapply digits_no_slash.
  - by eapply digits_no_slash.
Qed.

Lemma last_colon_unique a a' s s' :
  a +:+ String ":" s = a' +:+ String ":" s' ->
  count_char ":" s = O -> count_char ":" s' = O -> s = s'.
Proof.
  revert a'. induction a as [|x a IH]; intros [|y a']; simpl.
  - by intros [= ->].
  - intros [= <- ->] Hs _. rewrite count_char_app in Hs. simpl in Hs. lia.
  - intros [= -> <-] _ Hs'. rewrite count_char_app in Hs'. simpl in Hs'. lia.
  - intros [= _ Heq]. by apply (IH a').
Qed.

(** X2: an address with a slash after its last colon, such as a trailing
    path behind the port, is rejected. *)
Theorem parse_host_port_trailing_path before seg :
  count_char ":" seg = O -> count_char "/" seg <> O ->
  parse_host_port (before +:+ ":" +:+ seg) = Raise ValueError.
Proof.
  intros Hcolon Hslash.
  destruct (parse_host_port_suffix (before +:+ ":" +:+ seg))
    as (suffix & Hsuf & Hparse).
  rewrite Hparse.
  destruct (Py.split ":" suffix) as [|h [|p [|q r]]] eqn:Hsplit; try done.
  destruct (Py.int p) as [v|] eqn:Hint; [|done]. exfalso.
  apply split_two in Hsplit as [-> Hc].
  rewrite count_char_app in Hc. simpl in Hc.
  apply int_no_slash in Hint.
  assert (seg = p) as ->; [|done].
  destruct Hsuf as [[_ Heq]|(scheme & Heq & _)].
  - eapply (last_colon_unique before h); [symmetry; exact Heq | done | lia].
  - eapply (last_colon_unique before (scheme +:+ "://" +:+ h)); [|done|lia].
    rewrite !append_assoc. exact Heq.
Qed.

Lemma parse_host_port_trailing_path_witness :
  parse_host_port "tcp://10.0.0.5:8786/status" = Raise ValueError.
Proof.
  apply (parse_host_port_trailing_path "tcp://10.0.0.5" "8786/status");
    [reflexivity | discriminate].
Defined.

End ParserExtras.

(** ** Further properties of the round *)

Section RoundExtras.

(** X3: the round returns exactly when every entry of the location report
    resolves, every queried worker answers, and every partition index is
    the self-reported rank of some queried worker. *)
Theorem round_returns_iff c ddf :
  (exists futs tr, _get_mg_info c ddf [] = (Ret futs, tr)) <->
  (exists wm, locality_map c ddf = Ret wm) /\
  Forall (fun w => liveness (worker c w) = Alive) (queried c ddf) /\
  (forall i, (i < length ddf)%nat ->
     exists w, w ∈ queried c ddf /\ comm_rank (worker c w) = i).
Proof.
  split.
  - intros (futs & tr & (wm & pwm & Hloc & Halive & Hpwm & _)%get_mg_info_Ret).
    split; [by exists wm|]. split; [done|].
    apply pairing_Ret in Hpwm as [Hlen Hpwm]. intros i Hi.
    destruct (lookup_lt_is_Some_2 pwm i) as [pw Hpw]; [lia|].
    destruct (Hpwm i pw Hpw) as [_ Hd%table_lookup]. eauto.
  - intros ([wm Hloc] & Halive & Hcover).
    destruct (pairing_total
                (Py.dict ((fun w => (comm_rank (worker c w), w)) <$> queried c ddf))
                ddf) as [pwm Hpwm].
    { intros i (w & Hw & <-)%Hcover. by apply table_is_Some. }
    exists (compute_future (vertex_count ddf) <$> pwm). eexists.
    rewrite get_mg_info_run, Hloc. cbv zeta.
    assert (mapO (rank_answer c) (zip ddf (has_what c)) =
            Ret ((fun pw : Part * string => (comm_rank (worker c pw.2), pw.2))
                   <$> zip ddf (has_what c))) as ->.
    { apply rank_answers_Ret. split; [|done].
      unfold queried in Halive. by apply Forall_fmap in Halive. }
    rewrite rank_pairs_fmap, Hpwm.
    by rewrite (dispatched_resolved c ddf _ pwm Halive Hpwm).
Qed.

(** X4: a round that returns has pinned its compute tasks to pairwise
    distinct workers. *)
Theorem dispatch_pins_distinct c ddf futs tr :
  _get_mg_info c ddf [] = (Ret futs, tr) -> NoDup (pin <$> futs).
Proof.
  intros (wm & pwm & _ & _ & Hpwm & -> & _)%get_mg_info_Ret.
  apply pairing_Ret in Hpwm as [_ Hpwm].
  apply NoDup_alt. intros i j w Hi Hj.
  rewrite <- list_fmap_compose, list_lookup_fmap in Hi, Hj.
  destruct (pwm !! i) as [pi|] eqn:Hpi; [|done].
  destruct (pwm !! j) as [pj|] eqn:Hpj; [|done].
  simpl in Hi, Hj. injection Hi as Hi. injection Hj as Hj.
  destruct (Hpwm i pi Hpi) as [_ [_ Hri]%table_lookup].
  destruct (Hpwm j pj Hpj) as [_ [_ Hrj]%table_lookup].
  congruence.
Qed.

Lemma dispatch_pins_distinct_witness :
  exists futs tr,
    _get_mg_info swapped_cluster [partA; partB] [] = (Ret futs, tr) /\
    NoDup (pin <$> futs).
Proof.
  eexists _, _. split; [vm_compute; reflexivity|].
  apply (dispatch_pins_distinct swapped_cluster [partA; partB] _ _
           ltac:(vm_compute; reflexivity)).
Defined.

(** X5: a round that raises, at whatever stage, has requested no
    reduction and no compute task. *)
Theorem failed_round_computes_nothing c ddf e tr :
  _get_mg_info c ddf [] = (Raise e, tr) -> nothing_computed tr.
Proof.
  intros [(pwm & _ & _ & [=] & _)|[_ [->| ->]]]%get_mg_info_outcome.
  - apply prologue_nothing_computed.
  - apply rank_trace_nothing_computed.
Qed.

Lemma failed_round_computes_nothing_witness :
  nothing_computed (_get_mg_info one_worker_cluster [partA; partB] []).2.
Proof.
  apply (failed_round_computes_nothing one_worker_cluster [partA; partB]
           (KeyError 1)).
  vm_compute; reflexivity.
Defined.

Lemma rank_trace_submit c l f :
  EvSubmit f ∈ rank_trace c l -> exists pw, pw ∈ l /\ f = rank_future pw.
Proof.
  induction l as [|pw l IH]; simpl; [by intros ?%elem_of_nil|].
  intros [[= ->]|[[=]|Hin]%elem_of_cons]%elem_of_cons.
  - exists pw. split; [apply list_elem_of_here | done].
  - destruct (liveness (worker c pw.2)); try by apply elem_of_nil in Hin.
    destruct (IH Hin) as (pw' & Hpw' & ->). exists pw'.
    split; [by apply list_elem_of_further | done].
Qed.

(** X6: whatever the outcome, every task the round submits is pinned to
    one of the queried workers: the registry entries beyond the number of
    partitions are never used. *)
Theorem submissions_within_queried c ddf o tr f :
  _get_mg_info c ddf [] = (o, tr) -> EvSubmit f ∈ tr ->
  pin f ∈ queried c ddf /\ pin f ∈ take (length ddf) (has_what c).
Proof.
  intros Hrun Hin. rewrite <- queried_take.
  enough (pin f ∈ queried c ddf) by done. revert Hin.
  assert (forall l, EvSubmit f ∈ prologue ddf ++ l -> EvSubmit f ∈ l) as Hpro.
  { intros l [Hp|Hl]%elem_of_app; [|done]. unfold prologue in Hp.
    repeat (apply elem_of_cons in Hp as [[=]|Hp]). by apply elem_of_nil in Hp. }
  assert (EvSubmit f ∈ rank_trace c (zip ddf (has_what c)) -> pin f ∈ queried c ddf)
    as Hrank.
  { intros (pw & Hpw & ->)%rank_trace_submit. unfold queried.
    apply list_elem_of_fmap. by exists pw. }
  apply get_mg_info_outcome in Hrun
    as [(pwm & _ & Hpwm & _ & ->)|[_ [->| ->]]].
  - intros [Hr|Hrest]%Hpro%elem_of_app; [by apply Hrank|].
    apply elem_of_cons in Hrest as [[=]|Hrest].
    apply elem_of_cons in Hrest as [[=]|Hrest].
    apply elem_of_app in Hrest as [Hsub|Hw].
    + apply list_elem_of_fmap in Hsub as (f' & [= ->] & Hf').
      apply list_elem_of_fmap in Hf' as (pw & -> & Hpw).
      apply pairing_Ret in Hpwm as [_ Hpwm].
      apply list_elem_of_lookup in Hpw as [i Hi].
      by destruct (Hpwm i pw Hi) as [_ [Hq _]%table_lookup].
    + apply list_elem_of_singleton in Hw. discriminate Hw.
  - intros Hin. rewrite <- (app_nil_r (prologue ddf)) in Hin.
    apply Hpro in Hin. by apply elem_of_nil in Hin.
  - by intros Hr%Hpro%Hrank.
Qed.

Lemma submissions_within_queried_witness :
  pin {| task := GetRank partA; pin := W3 |}
    ∈ queried three_worker_cluster [partA; partB] /\
  pin {| task := GetRank partA; pin := W3 |}
    ∈ take (length [partA; partB]) (has_what three_worker_cluster).
Proof.
  eapply (submissions_within_queried three_worker_cluster [partA; partB]
            (Raise (KeyError 1)) _ {| task := GetRank partA; pin := W3 |}).
  - vm_compute; reflexivity.
  - do 3 apply list_elem_of_further. apply list_elem_of_here.
Defined.

Lemma rank_trace_alternates c l k f :
  rank_trace c l !! k = Some (EvSubmit f) ->
  rank_trace c l !! S k = Some (EvResult f).
Proof.
  revert k. induction l as [|pw l IH]; intros k; [done|].
  destruct k as [|[|k]]; simpl.
  - by intros [= <-].
  - done.
  - destruct (liveness (worker c pw.2)); try done. apply IH.
Qed.

(** X7: the rank queries are made one at a time: in every trace of the
    round, the submission of a rank query is directly followed by the wait
    for its result, before anything else is submitted. *)
Theorem rank_queries_sequential c ddf o tr k f l :
  _get_mg_info c ddf [] = (o, tr) ->
  tr !! k = Some (EvSubmit f) -> task f = GetRank l ->
  tr !! S k = Some (EvResult f).
Proof.
  intros Hrun Hk Htask.
  assert (forall rest,
            Forall (fun e => is_rank_submit e = false) rest ->
            (prologue ddf ++ rank_trace c (zip ddf (has_what c)) ++ rest) !! k
              = Some (EvSubmit f) ->
            (prologue ddf ++ rank_trace c (zip ddf (has_what c)) ++ rest) !! S k
              = Some (EvResult f)) as Hshape.
  { intros rest Hrest Hl.
    destruct k as [|[|[|k]]]; try discriminate Hl.
    change ((rank_trace c (zip ddf (has_what c)) ++ rest) !! k = Some (EvSubmit f)) in Hl.
    change ((rank_trace c (zip ddf (has_what c)) ++ rest) !! S k = Some (EvResult f)).
    apply lookup_app_Some in Hl as [Hl|[_ Hl]].
    - apply rank_trace_alternates in Hl. by apply lookup_app_l_Some.
    - apply list_elem_of_lookup_2 in Hl.
      apply (proj1 (Forall_forall _ _) Hrest) in Hl.
      destruct f as [t w]. simpl in Htask. subst t. discriminate Hl. }
  apply get_mg_info_outcome in Hrun
    as [(pwm & _ & _ & _ & ->)|[_ [->| ->]]].
  - apply Hshape; [|done].
    repeat (apply Forall_cons; split; [done|]).
    apply Forall_app. split; [|by repeat constructor].
    apply Forall_fmap, Forall_fmap, Forall_forall. done.
  - by destruct k as [|[|[|k]]].
  - rewrite <- (app_nil_r (rank_trace _ _)) in Hk |- *. by apply Hshape.
Qed.

Lemma rank_queries_sequential_witness :
  (_get_mg_info swapped_cluster [partA; partB] []).2 !! 4%nat
    = Some (EvResult {| task := GetRank partA; pin := W1 |}).
Proof.
  apply (rank_queries_sequential swapped_cluster [partA; partB]
           (_get_mg_info swapped_cluster [partA; partB] []).1
           (_get_mg_info swapped_cluster [partA; partB] []).2 3
           {| task := GetRank partA; pin := W1 |} partA).
  - apply surjective_pairing.
  - vm_compute; reflexivity.
  - reflexivity.
Defined.

End RoundExtras.

(** ** Further properties of the global parameter and of the compute task *)

Section ParameterExtras.

(** X8: the vertex count is NaN exactly when the dataset has no row; for
    a dataset whose ids float64 holds exactly, its value is greater than
    every vertex id of every partition, and one of the ids is its
    predecessor. *)
Theorem vertex_count_exceeds_ids ddf :
  (vertex_count ddf = SNaN <-> all_rows ddf = []) /\
  (ids_exact ddf ->
   forall n, scalar_value (vertex_count ddf) = Some n ->
     (forall p s d, p ∈ ddf -> (s, d) ∈ rows p -> s < n /\ d < n) /\
     (exists p s d, p ∈ ddf /\ (s, d) ∈ rows p /\ (s = n - 1 \/ d = n - 1))).
Proof.
  split; [apply vertex_count_nan|]. intros Hx n.
  rewrite (vertex_count_rows ddf Hx).
  destruct (series_max (all_rows ddf).*1) as [a|] eqn:Ha;
    destruct (series_max (all_rows ddf).*2) as [b|] eqn:Hb; try done.
  assert (scalar_value (reduced ddf (Z.max a b + 1)) = Some (Z.max a b + 1)) as ->.
  { unfold reduced. by destruct (forallb has_rows ddf). }
  intros [= <-].
  apply series_max_Some in Ha as [Hain Ha], Hb as [Hbin Hb]. split.
  - intros p s d Hp Hr.
    assert ((s, d) ∈ all_rows ddf) as Hin by (apply all_rows_elem; eauto).
    assert (s <= a) by (apply Ha, list_elem_of_fmap; by exists (s, d)).
    assert (d <= b) by (apply Hb, list_elem_of_fmap; by exists (s, d)).
    lia.
  - destruct (Z.max_spec a b) as [[_ ->]|[_ ->]].
    + apply list_elem_of_fmap in Hbin as ([s d] & -> & Hin).
      apply all_rows_elem in Hin as (p & Hp & Hr).
      exists p, s, d. repeat split; try done. right. simpl. lia.
    + apply list_elem_of_fmap in Hain as ([s d] & -> & Hin).
      apply all_rows_elem in Hin as (p & Hp & Hr).
      exists p, s, d. repeat split; try done. left. simpl. lia.
Qed.

Lemma series_max_perm xs ys : xs ≡ₚ ys -> series_max xs = series_max ys.
Proof.
  intros Hperm. destruct (series_max xs) as [a|] eqn:Ha.
  - symmetry. apply series_max_Some. apply series_max_Some in Ha as [Hin Hub].
    split; [by rewrite <- Hperm|]. intros x Hx. apply Hub. by rewrite Hperm.
  - apply series_max_None in Ha. subst xs.
    apply Permutation_nil_l in Hperm. by subst ys.
Qed.

Lemma nanmax_comm a b : nanmax a b = nanmax b a.
Proof. destruct a, b; simpl; f_equal; lia. Qed.

Lemma foldl_nanmax_cons m (l : list (option Z)) :
  foldl nanmax None (m :: l) = nanmax m (foldl nanmax None l).
Proof. simpl. apply foldl_nanmax_start. Qed.

Lemma foldl_nanmax_perm (l1 l2 : list (option Z)) :
  l1 ≡ₚ l2 -> foldl nanmax None l1 = foldl nanmax None l2.
Proof.
  induction 1 as [|x l1 l2 _ IH|x y l|l1 l2 l3 _ IH1 _ IH2].
  - done.
  - by rewrite !foldl_nanmax_cons, IH.
  - rewrite !foldl_nanmax_cons, <- !nanmax_assoc. f_equal. apply nanmax_comm.
  - congruence.
Qed.

Lemma forallb_perm {X} (f : X -> bool) (l1 l2 : list X) :
  l1 ≡ₚ l2 -> forallb f l1 = forallb f l2.
Proof.
  induction 1 as [|x l1 l2 _ IH|x y l|l1 l2 l3 _ IH1 _ IH2]; simpl.
  - done.
  - by rewrite IH.
  - by destruct (f x), (f y).
  - congruence.
Qed.

Lemma ddf_max_perm col ddf1 ddf2 :
  ddf1 ≡ₚ ddf2 -> ddf_max col ddf1 = ddf_max col ddf2.
Proof.
  intros Hperm. unfold ddf_max. cbv zeta.
  assert (map (fun p => series_max (column col p)) ddf1
          ≡ₚ map (fun p => series_max (column col p)) ddf2) as Hc
    by by apply fmap_Permutation.
  rewrite (forallb_perm _ _ _ Hc), (foldl_nanmax_perm _ _ Hc).
  by rewrite (foldl_nanmax_perm _ _ (fmap_Permutation (option_map Np.float64) _ _ Hc)).
Qed.

Lemma ddf_max_rows_perm col ddf1 ddf2 :
  Forall2 (fun p q => rows p ≡ₚ rows q) ddf1 ddf2 ->
  ddf_max col ddf1 = ddf_max col ddf2.
Proof.
  intros HF. unfold ddf_max. cbv zeta.
  assert (map (fun p => series_max (column col p)) ddf1
          = map (fun p => series_max (column col p)) ddf2) as ->; [|done].
  induction HF as [|p q l1 l2 Hpq _ IH]; simpl; [done|]. rewrite IH. f_equal.
  apply series_max_perm. unfold column. by apply fmap_Permutation.
Qed.

(** X9: the vertex count does not depend on the order of the partitions,
    nor on the order of the rows inside each partition. *)
Theorem vertex_count_order_independent ddf1 ddf2 :
  ddf1 ≡ₚ ddf2 \/ Forall2 (fun p q => rows p ≡ₚ rows q) ddf1 ddf2 ->
  vertex_count ddf1 = vertex_count ddf2.
Proof.
  unfold vertex_count. cbv zeta. intros [Hperm|HF].
  - by rewrite (ddf_max_perm 0 _ _ Hperm), (ddf_max_perm 1 _ _ Hperm).
  - by rewrite (ddf_max_rows_perm 0 _ _ HF), (ddf_max_rows_perm 1 _ _ HF).
Qed.

Lemma vertex_count_order_independent_witness :
  vertex_count [partA; partB] = vertex_count [partB; partA].
Proof.
  apply vertex_count_order_independent. left. apply Permutation_swap.
Defined.

Lemma sorted_upper (l : list Z) lst :
  StronglySorted Z.le l -> last l = Some lst -> forall d, d ∈ l -> d <= lst.
Proof.
  induction 1 as [|x l Hs IH Hx]; [done|].
  destruct l as [|y l'].
  - intros [= <-] d Hd%list_elem_of_singleton. lia.
  - change (last (x :: y :: l')) with (last (y :: l')). intros Hlast d.
    intros [->|Hd]%elem_of_cons; [|by apply IH].
    assert (lst ∈ y :: l') as Hin.
    { apply last_Some in Hlast as [l'' ->]. set_solver. }
    by apply (proj1 (Forall_forall _ _) Hx).
Qed.

(** X10: when the compute task returns, its partition has rows, the
    kernel was called with the partition, the global parameter unchanged
    and the int64 [last - first + 1] of the destination column, and did
    not raise; for a partition sorted by destination whose destination
    ids lie strictly between [- 2 ^ 62] and [2 ^ 62], that length does not wrap, is
    positive and covers the offset of every destination id from the
    first. *)
Theorem mg_pagerank_col_length c proc data global_v v :
  _mg_pagerank c proc data global_v = Ret v ->
  exists r0 rn,
    head (rows data) = Some r0 /\ last (rows data) = Some rn /\
    v = VFrame data (Np.int64 (Np.int64 (rn.2 - r0.2) + 1)) global_v /\
    kernel_raises c data (Np.int64 (Np.int64 (rn.2 - r0.2) + 1)) global_v = false /\
    (Sorted Z.le (rows data).*2 ->
     Forall (fun d => - 2 ^ 62 < d < 2 ^ 62) (rows data).*2 ->
       Np.int64 (Np.int64 (rn.2 - r0.2) + 1) = rn.2 - r0.2 + 1 /\
       1 <= rn.2 - r0.2 + 1 /\
       forall d, d ∈ (rows data).*2 -> 0 <= d - r0.2 < rn.2 - r0.2 + 1).
Proof.
  unfold _mg_pagerank.
  destruct (rows data) as [|r0 rs] eqn:Hrows; [done|].
  destruct (last (r0 :: rs)) as [rn|] eqn:Hlast; [|done].
  destruct (kernel_raises c data _ global_v) eqn:Hk; [done|].
  intros [= <-]. exists r0, rn. do 4 (split; [done|]).
  intros Hsorted Hrange.
  apply Sorted_StronglySorted in Hsorted; [|intros ???; lia].
  assert (rn.2 ∈ (r0 :: rs).*2) as Hin.
  { apply list_elem_of_fmap. exists rn. split; [done|].
    apply last_Some in Hlast as [l' ->]. set_solver. }
  assert (forall d, d ∈ (r0 :: rs).*2 -> r0.2 <= d <= rn.2) as Hbounds.
  { intros d Hd. split.
    - rewrite fmap_cons in Hsorted, Hd.
      apply StronglySorted_inv in Hsorted as [_ Hall].
      apply elem_of_cons in Hd as [->|Hd]; [lia|].
      by apply (proj1 (Forall_forall _ _) Hall).
    - eapply sorted_upper; [exact Hsorted | | exact Hd].
      by rewrite fmap_last, Hlast. }
  pose proof (Hbounds _ Hin) as Hrn.
  pose proof (proj1 (Forall_forall _ _) Hrange _ Hin) as Hrn'. cbv beta in Hrn'.
  assert (- 2 ^ 62 < r0.2 < 2 ^ 62) as Hr0.
  { apply (proj1 (Forall_forall (fun d => - 2 ^ 62 < d < 2 ^ 62) _) Hrange).
    rewrite fmap_cons. apply list_elem_of_here. }
  repeat split.
  - rewrite (int64_exact (rn.2 - r0.2)) by lia. apply int64_exact. lia.
  - lia.
  - apply Hbounds in H. lia.
  - apply Hbounds in H. lia.
Qed.

Lemma mg_pagerank_col_length_witness :
  exists r0 rn,
    head (rows partA) = Some r0 /\ last (rows partA) = Some rn /\
    VFrame partA 49 (SInt 100)
      = VFrame partA (Np.int64 (Np.int64 (rn.2 - r0.2) + 1)) (SInt 100) /\
    kernel_raises swapped_cluster partA (Np.int64 (Np.int64 (rn.2 - r0.2) + 1))
      (SInt 100) = false /\
    (Sorted Z.le (rows partA).*2 ->
     Forall (fun d => - 2 ^ 62 < d < 2 ^ 62) (rows partA).*2 ->
       Np.int64 (Np.int64 (rn.2 - r0.2) + 1) = rn.2 - r0.2 + 1 /\
       1 <= rn.2 - r0.2 + 1 /\
       forall d, d ∈ (rows partA).*2 -> 0 <= d - r0.2 < rn.2 - r0.2 + 1).
Proof.
  apply (mg_pagerank_col_length swapped_cluster (mpi 0) partA (SInt 100)
           (VFrame partA 49 (SInt 100))).
  reflexivity.
Defined.

End ParameterExtras.

(** ** Properties of the locality loop and of the debug path *)

Section LocalityExtras.

(** X11: the dictionary of line 69 binds a key to the last partition that
    has it; when no two partitions share a key, every partition is found
    under its own key. *)
Theorem key_to_part_lookup (ddf : list Part) :
  (forall k p, key_to_part ddf !! k = Some p <->
     exists l1 l2, ddf = l1 ++ p :: l2 /\ key p = k /\ k ∉ key <$> l2) /\
  (NoDup (key <$> ddf) -> forall p, p ∈ ddf -> key_to_part ddf !! key p = Some p).
Proof.
  unfold key_to_part. split.
  - intros k p. rewrite dict_lookup_Some. split.
    + intros (m1 & m2 & Hsplit & Hk).
      apply fmap_app_inv in Hsplit as (l1 & l2' & -> & Hcons & ->).
      symmetry in Hcons.
      apply fmap_cons_inv in Hcons as (q & l2 & [= -> ->] & -> & ->).
      exists l1, l2. repeat split.
      by rewrite <- list_fmap_compose in Hk.
    + intros (l1 & l2 & -> & <- & Hk).
      exists ((fun part => (key part, part)) <$> l1),
             ((fun part => (key part, part)) <$> l2).
      rewrite fmap_app, fmap_cons. split; [done|].
      by rewrite <- list_fmap_compose.
  - intros Hnd p Hp. apply dict_lookup_NoDup.
    + by rewrite <- list_fmap_compose.
    + apply list_elem_of_fmap. by exists p.
Qed.

Lemma locality_entry_Ret ddf item entry :
  locality_entry (key_to_part ddf) item = Ret entry <-> resolves_to ddf item entry.
Proof.
  unfold resolves_to. destruct item as [k ws], entry as [wa p]. simpl. split.
  - destruct ws as [|w rest]; [done|]. simpl.
    destruct (parse_host_port w) as [wa'| |] eqn:Hw; try done.
    destruct (key_to_part ddf !! k) as [p'|] eqn:Hk; [|done].
    intros [= -> ->]. by exists w, rest.
  - intros (w & rest & -> & Hw & Hk). simpl. by rewrite Hw, Hk.
Qed.

(** X12: [worker_map] has one entry for each entry of the location report,
    in the order of the report: the parsed first holder, with the
    partition registered under the entry's key; it is built exactly when
    every entry has a first holder that parses and a key that is the key
    of a partition. *)
Theorem locality_map_entries c ddf wm :
  locality_map c ddf = Ret wm <->
  Forall2 (fun item entry =>
             exists w rest,
               item.2 = w :: rest /\ parse_host_port w = Ret entry.1 /\
               entry.2 ∈ ddf /\ key entry.2 = item.1 /\
               key_to_part ddf !! item.1 = Some entry.2)
          (who_has c) wm.
Proof.
  unfold locality_map. rewrite mapO_Ret. split.
  - intros HF. eapply Forall2_impl; [exact HF|]. clear HF.
    intros item entry (w & rest & Hi & Hw & Hk)%locality_entry_Ret.
    exists w, rest. repeat split; try done.
    + apply (proj1 (key_to_part_lookup ddf)) in Hk as (l1 & l2 & -> & _). set_solver.
    + by apply (proj1 (key_to_part_lookup ddf)) in Hk as (l1 & l2 & _ & ? & _).
  - intros HF. eapply Forall2_impl; [exact HF|]. clear HF.
    intros item entry (w & rest & Hi & Hw & _ & _ & Hk).
    apply locality_entry_Ret. by exists w, rest.
Qed.

(** X13: [print_data], when it returns, has submitted one print task for
    each entry of the location report, in the order of the report, each
    pinned to the parsed first holder of its entry and given the
    partition registered under the entry's key; the tasks submitted are
    the handles returned, and all of them have ended. *)
Theorem print_data_pins_holders listening c ddf tr0 futs tr :
  print_data listening c ddf tr0 = (Ret futs, tr) ->
  Forall2 (fun item f =>
             exists w rest,
               item.2 = w :: rest /\ parse_host_port w = Ret (print_pin f) /\
               printed_part f ∈ ddf /\ key (printed_part f) = item.1)
          (who_has c) futs /\
  tr = tr0 ++ [PvMaterialize ddf; PvWhoHas] ++ (PvSubmit <$> futs) ++ [PvWait futs] /\
  forall f, f ∈ futs -> run_print listening f <> Hang.
Proof.
  unfold print_data.
  destruct (locality_map c ddf) as [wm| |] eqn:Hloc; [|done..]. cbv zeta.
  destruct (forallb _ _) eqn:Hres; [|done]. intros [= <- <-].
  apply locality_map_entries in Hloc. repeat split.
  - apply Forall2_fmap_r. eapply Forall2_impl; [exact Hloc|].
    intros item entry (w & rest & Hi & Hw & Hin & Hk & _). simpl.
    by exists w, rest.
  - by rewrite <- !app_assoc.
  - intros f Hf Hrun. rewrite forallb_forall in Hres.
    apply list_elem_of_In, Hres in Hf. unfold print_resolved in Hf.
    by rewrite Hrun in Hf.
Qed.

Lemma print_data_pins_holders_witness :
  exists futs tr,
    print_data everywhere local_cluster [partA; partB] [] = (Ret futs, tr) /\
    Forall2 (fun item f =>
               exists w rest,
                 item.2 = w :: rest /\ parse_host_port w = Ret (print_pin f) /\
                 printed_part f ∈ [partA; partB] /\ key (printed_part f) = item.1)
            (who_has local_cluster) futs.
Proof.
  eexists _, _. split; [vm_compute; reflexivity|].
  apply (print_data_pins_holders everywhere local_cluster [partA; partB] [] _ _
           ltac:(vm_compute; reflexivity)).
Defined.

End LocalityExtras.
